(** * flatjson: a shallow embedding of [parseJSON] and of the [Encoder]

    The development follows [flatjson.go].  The walker [parseJSON] pulls
    tokens from an [encoding/json] decoder and keeps its bookkeeping in
    local variables; here those variables are the fields of [State], one
    loop iteration is [step], and Go's run-time panics (index out of range,
    slice bounds out of range, failed type assertion) are results of their
    own, so that "the function returns" is a statement one can prove or
    refute. *)

From Stdlib Require Import ZArith Ascii String List Lia.
From stdpp Require Import base list strings pretty gmap.

Local Open Scope Z_scope.

(** ** Tokens, pairs and run-time failures *)

(** The four values of [json.Delim] that [Decoder.Token] produces. *)
Inductive Delim : Type := lbrace | rbrace | lsquare | rsquare.

(** Every other [json.Token]: [nil], [bool], [float64] and [string].  The
    walker never looks inside a number, so a number carries the literal the
    decoder read it from. *)
Inductive Scalar : Type :=
  | Null
  | Bool (b : bool)
  | Number (lit : string)
  | Str (s : string).

Inductive Token : Type :=
  | TDelim (d : Delim)
  | TValue (v : Scalar).

(** [type Pair struct { Key string; Value interface{} }] *)
Record Pair : Type := mkPair { Key : string; Value : Scalar }.

(** Go's [error] values are compared by identity only; a message stands for
    one. *)
Definition error : Type := string.

Inductive Panic : Type :=
  | IndexOutOfRange (i : Z) (len : nat)
  | SliceBoundsOutOfRange (hi : Z) (cap : nat)
  | InterfaceConversion (v : Scalar).

Inductive Run (A : Type) : Type :=
  | Done (a : A)
  | Panicked (p : Panic).
Arguments Done {A} a.
Arguments Panicked {A} p.

Definition bind {A B : Type} (m : Run A) (k : A -> Run B) : Run B :=
  match m with
  | Done a => k a
  | Panicked p => Panicked p
  end.

Notation "'let*' x ':=' m 'in' k" := (bind m (fun x => k))
  (at level 10, x name, m at level 100, k at level 200).

(** ** Slices and strings as Go has them *)

(** [make([]string, n)] *)
Definition make (n : Z) : list string := replicate (Z.to_nat n) "".

(** [copy(dst, src)]: the first [min(len(dst), len(src))] cells. *)
Definition copy (dst src : list string) : list string :=
  take (length dst) src ++ drop (length src) dst.

(** [s[i] = x] *)
Definition index_set (s : list string) (i : Z) (x : string) : Run (list string) :=
  if decide (0 <= i < Z.of_nat (length s))
  then Done (<[Z.to_nat i := x]> s)
  else Panicked (IndexOutOfRange i (length s)).

(** [s[i]] *)
Definition index_get (s : list string) (i : Z) : Run string :=
  if decide (0 <= i < Z.of_nat (length s))
  then Done (default "" (s !! Z.to_nat i))
  else Panicked (IndexOutOfRange i (length s)).

(** [s[:hi]]; every slice here comes from [make], so [cap(s) = len(s)]. *)
Definition slice_to (s : list string) (hi : Z) : Run (list string) :=
  if decide (0 <= hi <= Z.of_nat (length s))
  then Done (take (Z.to_nat hi) s)
  else Panicked (SliceBoundsOutOfRange hi (length s)).

(** [strings.Join(elems, sep)] *)
Fixpoint Join (elems : list string) (sep : string) : string :=
  match elems with
  | [] => ""
  | x :: rest =>
      match rest with
      | [] => x
      | _ :: _ => x +:+ sep +:+ Join rest sep
      end
  end.

(** [b++] on a [byte]: wraps at 256. *)
Definition byte_incr (b : ascii) : ascii :=
  ascii_of_N ((N_of_ascii b + 1) mod 256).

(** [tok.(string)] *)
Definition assert_string (tok : Scalar) : Run string :=
  match tok with
  | Str s => Done s
  | _ => Panicked (InterfaceConversion tok)
  end.

Definition pathd : string := ".".

(** ** The local variables of [parseJSON] *)

(** [pos] is a Go [int]; it moves by one per token and stays below
    [len(path)], so it is kept as an integer without wrap-around. *)
Record State : Type := mkState {
  pairs : list Pair;
  inmap : bool;
  inarr : bool;
  empty : bool;
  onkey : bool;
  arridx : list ascii;
  arrkey : string;
  path : list string;
  pos : Z
}.

Definition init : State :=
  {| pairs := []; inmap := false; inarr := false; empty := false;
     onkey := false;
     arridx := ["["; "0"; "]"]%char;
     arrkey := "";
     path := make 10;
     pos := -1 |}.

(** [Key: strings.Join(path[:pos+1], pathd)] *)
Definition joined_key (st : State) : Run string :=
  let* p := slice_to (path st) (pos st + 1) in
  Done (Join p pathd).

(** [case lbrace] *)
Definition on_lbrace (st : State) : Run State :=
  let pos' := pos st + 1 in
  let path' :=
    if decide (pos' = Z.of_nat (length (path st)))
    then copy (make (pos' * 2)) (path st)
    else path st in
  Done {| pairs := pairs st; inmap := true; inarr := inarr st; empty := true;
          onkey := true; arridx := arridx st; arrkey := arrkey st;
          path := path'; pos := pos' |}.

(** [case rbrace] *)
Definition on_rbrace (st : State) : Run State :=
  let* pairs' :=
    (if empty st && (0 <? pos st)
     then let* k := joined_key st in Done (pairs st ++ [mkPair k Null])
     else Done (pairs st)) in
  Done {| pairs := pairs'; inmap := false; inarr := inarr st;
          empty := empty st; onkey := true; arridx := arridx st;
          arrkey := arrkey st; path := path st; pos := pos st - 1 |}.

(** [case lsquare] *)
Definition on_lsquare (st : State) : Run State :=
  let* arrkey' := (if 0 <? pos st then index_get (path st) (pos st) else Done "") in
  Done {| pairs := pairs st; inmap := inmap st; inarr := true; empty := true;
          onkey := onkey st; arridx := <[1%nat := "0"%char]> (arridx st);
          arrkey := arrkey'; path := path st; pos := pos st |}.

(** [case rsquare] *)
Definition on_rsquare (st : State) : Run State :=
  let* pairs' :=
    (if empty st && (0 <=? pos st)
     then let* k := joined_key st in Done (pairs st ++ [mkPair k Null])
     else Done (pairs st)) in
  Done {| pairs := pairs'; inmap := inmap st; inarr := false;
          empty := empty st; onkey := onkey st; arridx := arridx st;
          arrkey := arrkey st; path := path st; pos := pos st |}.

(** [default:] with [onkey] set: the token is taken for a map key. *)
Definition on_key (st : State) (tok : Scalar) : Run State :=
  let* s := assert_string tok in
  let* path' := index_set (path st) (pos st) s in
  Done {| pairs := pairs st; inmap := inmap st; inarr := inarr st;
          empty := false; onkey := false; arridx := arridx st;
          arrkey := arrkey st; path := path'; pos := pos st |}.

(** [default:] with [onkey] clear: the token is a map or array value. *)
Definition on_value (st : State) (tok : Scalar) : Run State :=
  let* st1 :=
    (if inarr st then
       let pos' := if pos st <? 0 then 0 else pos st in
       let* path' := index_set (path st) pos'
                  (arrkey st +:+ string_of_list_ascii (arridx st)) in
       Done {| pairs := pairs st; inmap := inmap st; inarr := inarr st;
               empty := false; onkey := onkey st;
               arridx := alter byte_incr 1%nat (arridx st);
               arrkey := arrkey st; path := path'; pos := pos' |}
     else
       Done {| pairs := pairs st; inmap := inmap st; inarr := inarr st;
               empty := false;
               onkey := if inmap st then true else onkey st;
               arridx := arridx st; arrkey := arrkey st; path := path st;
               pos := pos st |}) in
  let* key := joined_key st1 in
  Done {| pairs := pairs st1 ++ [mkPair key tok]; inmap := inmap st1;
          inarr := inarr st1; empty := empty st1; onkey := onkey st1;
          arridx := arridx st1; arrkey := arrkey st1; path := path st1;
          pos := pos st1 |}.

(** One iteration of the [for] loop, after [dec.Token()] succeeded. *)
Definition step (st : State) (tok : Token) : Run State :=
  match tok with
  | TDelim lbrace => on_lbrace st
  | TDelim rbrace => on_rbrace st
  | TDelim lsquare => on_lsquare st
  | TDelim rsquare => on_rsquare st
  | TValue v => if onkey st then on_key st v else on_value st v
  end.

Fixpoint run_tokens (st : State) (toks : list Token) : Run State :=
  match toks with
  | [] => Done st
  | tok :: rest => let* st' := step st tok in run_tokens st' rest
  end.

(** What [dec.Token()] yields over the life of the decoder: the tokens, and
    then either [io.EOF] ([None]) or another error. *)
Record Reader : Type := mkReader { toks : list Token; failure : option error }.

(** [func parseJSON(r io.Reader) ([]*Pair, error)] *)
Definition parseJSON (r : Reader) : Run (list Pair * option error) :=
  let* st := run_tokens init (toks r) in
  match failure r with
  | None => Done (pairs st, None)
  | Some err => Done ([], Some err)
  end.

(** ** JSON documents and their token streams *)

#[local] Unset Elimination Schemes.
Inductive JSON : Type :=
  | JScalar (v : Scalar)
  | JObject (fields : list (string * JSON))
  | JArray (elems : list JSON).
#[local] Set Elimination Schemes.

(** The tokens [Decoder.Token] reports for a document, in document order:
    delimiters for the containers, each key as a string before its value. *)
Fixpoint tokens (j : JSON) : list Token :=
  match j with
  | JScalar v => [TValue v]
  | JObject fields =>
      TDelim lbrace ::
      (fix members (fs : list (string * JSON)) : list Token :=
         match fs with
         | [] => []
         | (k, v) :: fs' => TValue (Str k) :: tokens v ++ members fs'
         end) fields ++ [TDelim rbrace]
  | JArray elems =>
      TDelim lsquare ::
      (fix elements (es : list JSON) : list Token :=
         match es with
         | [] => []
         | e :: es' => tokens e ++ elements es'
         end) elems ++ [TDelim rsquare]
  end.

(** A whole document read to [io.EOF]: what the decoder delivers when it
    tokenizes every scalar of the document (see [tokenizes] for the
    proviso). *)
Definition document (j : JSON) : Reader := mkReader (tokens j) None.

Definition Parse (r : Reader) : Run (list Pair * option error) := parseJSON r.

(** Leaf positions as section 8 of the specification counts them: a scalar
    is one, an empty container that is not the root is one, a container
    with children is the sum of its children, and an empty root is none. *)
Fixpoint leaves (j : JSON) : nat :=
  match j with
  | JScalar _ => 1
  | JObject [] => 1
  | JArray [] => 1
  | JObject fields =>
      (fix members (fs : list (string * JSON)) : nat :=
         match fs with
         | [] => 0
         | (_, v) :: fs' => leaves v + members fs'
         end)%nat fields
  | JArray elems =>
      (fix elements (es : list JSON) : nat :=
         match es with
         | [] => 0
         | e :: es' => leaves e + elements es'
         end)%nat elems
  end.

Definition leaf_positions (root : JSON) : nat :=
  match root with
  | JObject [] | JArray [] => 0
  | _ => leaves root
  end.

(** The depth-1 object whose fields are the given scalars: the shape of the
    flat-map output. *)
Definition flat_object (fields : list (string * Scalar)) : JSON :=
  JObject (map (fun kv => (fst kv, JScalar (snd kv))) fields).

(** [n] objects nested under the key [k], around the scalar [v]. *)
Fixpoint nested (n : nat) (k : string) (v : Scalar) : JSON :=
  match n with
  | O => JScalar v
  | S n' => JObject [(k, nested n' k v)]
  end.

(** ** The encoder *)

(** [arrayPairs.MarshalJSON] builds [aux[i] = tokArray{p.Key, p.Value}]. *)
Definition arrayPairs_aux (a : list Pair) : list (Scalar * Scalar) :=
  map (fun p => (Str (Key p), Value p)) a.

(** [mapPairs.MarshalJSON] builds [aux[p.Key] = p.Value], later pairs
    overwriting earlier ones. *)
Definition mapPairs_aux (m : list Pair) : gmap string Scalar :=
  foldl (fun aux p => <[Key p := Value p]> aux) ∅ m.

Section Encoder.
(** What [encoding/json], [io] and [bytes] contribute. *)

(** The values [v interface{}] handed to the encoder. *)
Variable GoValue : Type.
(** [json.NewEncoder(buf).Encode(v)] on a fresh buffer: its bytes, or the
    error. *)
Variable Encode : GoValue -> string + error.
(** An [io.Reader] over the given bytes, as [parseJSON] reads it. *)
Variable NewBuffer : string -> Reader.
(** [json.Marshal(aux)] as [Encode] writes it, for the two shapes of
    [aux]. *)
Variable Marshal_array : list (Scalar * Scalar) -> string + error.
Variable Marshal_map : gmap string Scalar -> string + error.
(** The [io.Writer] in [f.w], and its [Write(b)]: the writer afterwards,
    which may have taken only part of [b], and the error returned. *)
Variable Writer : Type.
Variable Write : Writer -> string -> Writer * option error.

(** [json.NewEncoder(f.w).Encode(x)]: when marshalling fails nothing is
    written; otherwise the bytes go to [f.w] in one [Write], whose error is
    returned. *)
Definition write_json (w : Writer) (out : string + error)
  : Writer * option error :=
  match out with
  | inl bytes => Write w bytes
  | inr err => (w, Some err)
  end.

(** [func (f *Encoder) ConvertArray(r io.Reader) error] *)
Definition ConvertArray (w : Writer) (r : Reader) : Run (Writer * option error) :=
  let* res := parseJSON r in
  match snd res with
  | Some err => Done (w, Some err)
  | None => Done (write_json w (Marshal_array (arrayPairs_aux (fst res))))
  end.

(** [func (f *Encoder) ConvertMap(r io.Reader) error] *)
Definition ConvertMap (w : Writer) (r : Reader) : Run (Writer * option error) :=
  let* res := parseJSON r in
  match snd res with
  | Some err => Done (w, Some err)
  | None => Done (write_json w (Marshal_map (mapPairs_aux (fst res))))
  end.

(** [func (f *Encoder) EncodeArray(v interface{}) error] *)
Definition EncodeArray (w : Writer) (v : GoValue) : Run (Writer * option error) :=
  match Encode v with
  | inr err => Done (w, Some err)
  | inl buf =>
      let* res := parseJSON (NewBuffer buf) in
      match snd res with
      | Some err => Done (w, Some err)
      | None => Done (write_json w (Marshal_array (arrayPairs_aux (fst res))))
      end
  end.

(** [func (f *Encoder) EncodeMap(v interface{}) error] *)
Definition EncodeMap (w : Writer) (v : GoValue) : Run (Writer * option error) :=
  match Encode v with
  | inr err => Done (w, Some err)
  | inl buf =>
      let* res := parseJSON (NewBuffer buf) in
      match snd res with
      | Some err => Done (w, Some err)
      | None => Done (write_json w (Marshal_map (mapPairs_aux (fst res))))
      end
  end.
End Encoder.

Arguments write_json {Writer} Write w out.
Arguments ConvertArray Marshal_array {Writer} Write w r.
Arguments ConvertMap Marshal_map {Writer} Write w r.
Arguments EncodeArray {GoValue} Encode NewBuffer Marshal_array {Writer} Write w v.
Arguments EncodeMap {GoValue} Encode NewBuffer Marshal_map {Writer} Write w v.

(** [Write(b)] on a [bytes.Buffer]: the buffer grows by [b], and the error
    is always [nil]. *)
Definition buffer_Write (buf : string) (b : string) : string * option error :=
  (buf +:+ b, None).

(** ** Sample documents *)

Definition one : Scalar := Number "1".
Definition two : Scalar := Number "2".
Definition three : Scalar := Number "3".

(** [{"foo": [1, 2]}] *)
Definition foo_array : JSON := JObject [("foo", JArray [JScalar one; JScalar two])].
(** [{"a": {"foo": [1, 2]}}] *)
Definition inner_foo_array : JSON := JObject [("a", foo_array)].
(** [{"foo": {}}] *)
Definition foo_empty_map : JSON := JObject [("foo", JObject [])].
(** [[{}]] and [[[]]] *)
Definition array_of_empty_map : JSON := JArray [JObject []].
Definition array_of_empty_array : JSON := JArray [JArray []].
(** [[{}, "x"]] *)
Definition empty_map_then_string : JSON := JArray [JObject []; JScalar (Str "x")].
(** [{"a": {"b": 1}, "c": 2, "d": 3}] *)
Definition map_after_nested_map : JSON :=
  JObject [("a", JObject [("b", JScalar one)]); ("c", JScalar two);
           ("d", JScalar three)].
(** [[null, null, null, null, null, null, null, null, null, null, null]] *)
Definition eleven_nulls : JSON := JArray (replicate 11 (JScalar Null)).
(** [[[1], 2]] *)
Definition array_then_scalar : JSON := JArray [JArray [JScalar one]; JScalar two].
(** The tokens of [[{},"x"}] up to the stray brace, and the decoder's
    complaint about it. *)
Definition stray_brace : Reader :=
  mkReader [TDelim lsquare; TDelim lbrace; TDelim rbrace; TValue (Str "x")]
           (Some "invalid character '}' after array element").

(** ** Predicates on the walker's state *)

(** [pos] stays below [len(path)], and [path] never shrinks below the ten
    cells it starts with. *)
Definition in_capacity (st : State) : Prop :=
  pos st < Z.of_nat (length (path st)) /\ (10 <= length (path st))%nat.

(** The failures that are not an index or a bound past the end of a slice:
    the offending index is negative, or a type assertion failed. *)
Definition below_zero (p : Panic) : Prop :=
  match p with
  | IndexOutOfRange i _ => i < 0
  | SliceBoundsOutOfRange hi _ => hi < 0
  | InterfaceConversion _ => True
  end.

(** Directly inside the root object, before a key. *)
Definition at_root_key (st : State) : Prop :=
  inmap st = true /\ inarr st = false /\ onkey st = true /\
  pos st = 0 /\ path st <> [].

(** [i] objects deep under the key [k], the innermost key just read and
    nothing emitted yet. *)
Definition descended (i : nat) (k : string) (st : State) : Prop :=
  pos st = Z.of_nat i - 1 /\ take i (path st) = replicate i k /\
  inarr st = false /\ onkey st = false /\ pairs st = [] /\ in_capacity st.

(** The tokens that open [n] objects nested under the key [k]. *)
Fixpoint opening (n : nat) (k : string) : list Token :=
  match n with
  | O => []
  | S n' => TDelim lbrace :: TValue (Str k) :: opening n' k
  end.

(** The tokens of the members of a flat object. *)
Definition field_tokens (fields : list (string * Scalar)) : list Token :=
  flat_map (fun kv => [TValue (Str (fst kv)); TValue (snd kv)]) fields.

(** The pair a flat field is expected to give. *)
Definition field_pair (kv : string * Scalar) : Pair := mkPair (fst kv) (snd kv).

(** A sample setting for the encoder: the Go value [struct{}{}], whose
    standard encoding is [{}] and a newline, a buffer that holds those
    bytes, and marshalers for the empty [aux]. *)
Inductive EmptyStruct : Type := struct_lit.

Definition newline : string := String (ascii_of_nat 10) "".

Definition sample_Encode (v : EmptyStruct) : string + error :=
  inl ("{}" +:+ newline).

Definition sample_NewBuffer (bytes : string) : Reader :=
  if decide (bytes = "{}" +:+ newline)
  then document (JObject [])
  else mkReader [] (Some "sample buffer: bytes not known").

Definition sample_Marshal_array (aux : list (Scalar * Scalar)) : string + error :=
  match aux with
  | [] => inl ("[]" +:+ newline)
  | _ :: _ => inr "sample marshaler: pairs not supported"
  end.

Definition sample_Marshal_map (aux : gmap string Scalar) : string + error :=
  match map_to_list aux with
  | [] => inl ("{}" +:+ newline)
  | _ :: _ => inr "sample marshaler: pairs not supported"
  end.

(** ** The package-level functions *)

(** [return nil, err] or [return buf.Bytes(), nil], for a buffer that was
    empty before the encoder wrote to it. *)
Definition bytes_or_error (res : string * option error)
  : option string * option error :=
  match snd res with
  | Some err => (None, Some err)
  | None => (Some (fst res), None)
  end.

Module flatjson.

(** [func EncodeMap(v interface{}) ([]byte, error)] *)
Definition EncodeMap {GoValue : Type} (Encode : GoValue -> string + error)
    (NewBuffer : string -> Reader)
    (Marshal_map : gmap string Scalar -> string + error) (v : GoValue)
  : Run (option string * option error) :=
  let* res := EncodeMap Encode NewBuffer Marshal_map buffer_Write "" v in
  Done (bytes_or_error res).

(** [func EncodeArray(v interface{}) ([]byte, error)] *)
Definition EncodeArray {GoValue : Type} (Encode : GoValue -> string + error)
    (NewBuffer : string -> Reader)
    (Marshal_array : list (Scalar * Scalar) -> string + error) (v : GoValue)
  : Run (option string * option error) :=
  let* res := EncodeArray Encode NewBuffer Marshal_array buffer_Write "" v in
  Done (bytes_or_error res).

(** [func ConvertMap(r io.Reader) ([]byte, error)] *)
Definition ConvertMap (Marshal_map : gmap string Scalar -> string + error)
    (r : Reader) : Run (option string * option error) :=
  let* res := ConvertMap Marshal_map buffer_Write "" r in
  Done (bytes_or_error res).

(** [func ConvertArray(r io.Reader) ([]byte, error)] *)
Definition ConvertArray
    (Marshal_array : list (Scalar * Scalar) -> string + error)
    (r : Reader) : Run (option string * option error) :=
  let* res := ConvertArray Marshal_array buffer_Write "" r in
  Done (bytes_or_error res).

End flatjson.

(** ** Further shapes of input *)

(** The members of an object, as [tokens] lays them out. *)
Definition member_tokens : list (string * JSON) -> list Token :=
  fix members (fs : list (string * JSON)) : list Token :=
    match fs with
    | [] => []
    | (k, v) :: fs' => TValue (Str k) :: tokens v ++ members fs'
    end.

(** Documents made of objects and scalars, without any array. *)
Fixpoint objects_only (j : JSON) : bool :=
  match j with
  | JScalar _ => true
  | JObject fields =>
      (fix members (fs : list (string * JSON)) : bool :=
         match fs with
         | [] => true
         | (_, v) :: fs' => objects_only v && members fs'
         end) fields
  | JArray _ => false
  end.

(** Induction on documents, with the hypothesis for every member and
    element. *)
Fixpoint JSON_induction (P : JSON -> Prop)
    (Hscalar : forall v, P (JScalar v))
    (Hobject : forall fields,
        Forall (fun kv => P (snd kv)) fields -> P (JObject fields))
    (Harray : forall elems, Forall P elems -> P (JArray elems))
    (j : JSON) : P j :=
  match j with
  | JScalar v => Hscalar v
  | JObject fields =>
      Hobject fields
        ((fix members (fs : list (string * JSON))
            : Forall (fun kv => P (snd kv)) fs :=
            match fs with
            | [] => @List.Forall_nil _ _
            | kv :: fs' =>
                @List.Forall_cons _ _ kv fs'
                  (JSON_induction P Hscalar Hobject Harray (snd kv))
                  (members fs')
            end) fields)
  | JArray elems =>
      Harray elems
        ((fix elements (es : list JSON) : Forall P es :=
            match es with
            | [] => @List.Forall_nil _ _
            | e :: es' =>
                @List.Forall_cons _ _ e es'
                  (JSON_induction P Hscalar Hobject Harray e) (elements es')
            end) elems)
  end.

(** The object delimiters. *)
Definition brace (tok : Token) : bool :=
  match tok with
  | TDelim lbrace | TDelim rbrace => true
  | _ => false
  end.

(** The tokens on which [parseJSON] has an [append]: every one but the two
    opening delimiters. *)
Definition may_emit (tok : Token) : bool :=
  match tok with
  | TDelim lbrace | TDelim lsquare => false
  | _ => true
  end.

(** The root array of the given scalars. *)
Definition scalar_array (vs : list Scalar) : JSON := JArray (map JScalar vs).

(** The byte in [arridx[1]] after [i] increments from ['0'], and the key it
    renders to. *)
Definition index_byte (i : nat) : ascii :=
  ascii_of_N ((48 + N.of_nat i) mod 256).

Definition index_key (i : nat) : string :=
  string_of_list_ascii ["["; index_byte i; "]"]%char.

(** The scalar or object [leaf] under objects nested along the keys [ks]. *)
Fixpoint chain (ks : list string) (leaf : JSON) : JSON :=
  match ks with
  | [] => leaf
  | k :: ks' => JObject [(k, chain ks' leaf)]
  end.

Fixpoint opening_along (ks : list string) : list Token :=
  match ks with
  | [] => []
  | k :: ks' => TDelim lbrace :: TValue (Str k) :: opening_along ks'
  end.

(** ** Further predicates on the walker's state *)

(** Where a value is due and no array is open. *)
Definition value_pos (st : State) : Prop :=
  onkey st = false /\ inarr st = false /\ -1 <= pos st /\ in_capacity st.

(** Inside an object, where a key or the closing brace is due. *)
Definition key_pos (st : State) : Prop :=
  inarr st = false /\ 0 <= pos st /\ in_capacity st /\
  (onkey st = true \/ inmap st = false).

(** The state [st'] once the value due at [st] has been walked. *)
Definition after_value (st st' : State) : Prop :=
  pos st' = pos st /\ inarr st' = false /\ in_capacity st' /\
  (onkey st' = true \/ inmap st' = false).

(** No object was ever opened. *)
Definition outside_objects (st : State) : Prop :=
  onkey st = false /\ inmap st = false /\ -1 <= pos st /\ in_capacity st.

(** Inside a root array of scalars, [i] elements read. *)
Definition in_root_array (i : nat) (st : State) : Prop :=
  inarr st = true /\ onkey st = false /\ arrkey st = "" /\
  arridx st = ["["; index_byte i; "]"]%char /\
  (pos st = -1 \/ pos st = 0) /\ path st <> [] /\
  (empty st = false \/ pos st = -1).

(** Objects entered along the keys [ks], the last key just read, nothing
    emitted yet. *)
Definition descended_along (ks : list string) (st : State) : Prop :=
  pos st = Z.of_nat (length ks) - 1 /\ take (length ks) (path st) = ks /\
  inarr st = false /\ onkey st = false /\ pairs st = [] /\ in_capacity st.

(** Directly inside the object under the keys [ks], before a key. *)
Definition at_key_under (ks : list string) (st : State) : Prop :=
  inmap st = true /\ inarr st = false /\ onkey st = true /\
  pos st = Z.of_nat (length ks) /\ take (length ks) (path st) = ks /\
  in_capacity st.

(** [arridx] keeps its brackets: only the byte between them changes. *)
Definition bracketed (st : State) : Prop :=
  exists c, arridx st = ["["; c; "]"]%char.

(** Inside an array of scalars that is the value of the key [k] under the
    keys [outer], [i] elements read. *)
Definition in_array_under (outer : list string) (k : string) (i : nat)
    (st : State) : Prop :=
  inarr st = true /\ onkey st = false /\ arrkey st = k /\
  arridx st = ["["; index_byte i; "]"]%char /\
  pos st = Z.of_nat (length outer) /\
  take (length outer) (path st) = outer /\ in_capacity st.

(** What an encoder method may do to its writer [w]: return an error
    without touching it, or hand it bytes in one [Write] and return what
    that call gave. *)
Definition untouched_or_written {Writer : Type}
    (Write : Writer -> string -> Writer * option error) (w : Writer)
    (res : Writer * option error) : Prop :=
  (exists err, res = (w, Some err)) \/ (exists bytes, res = Write w bytes).

(** ** What the decoder makes of a document *)

(** The decoder made of [r] delivers every token of the document [j] and
    then [io.EOF]: each scalar of [j] was tokenized (no number is beyond
    [float64]) and no read failed. *)
Definition tokenizes (r : Reader) (j : JSON) : Prop :=
  toks r = tokens j /\ failure r = None.

(** The error of [Decoder.Token] at a number literal that
    [strconv.ParseFloat] cannot hold in a [float64]. *)
Definition range_error (lit : string) : error :=
  "json: cannot unmarshal number " +:+ lit +:+
  " into Go value of type float64".

(** The document [1e400], a valid JSON number beyond [float64]: the first
    [dec.Token()] fails. *)
Definition huge_number : Reader := mkReader [] (Some (range_error "1e400")).

(** The document [{"a": 1e400}]: the decoder delivers the brace and the
    key, and fails at the number. *)
Definition huge_field : Reader :=
  mkReader [TDelim lbrace; TValue (Str "a")] (Some (range_error "1e400")).

(** ** A writer and a marshaller to run the encoder on samples *)

(** A writer that takes two bytes of what it is given and then fails. *)
Definition short_Write (w : string) (b : string) : string * option error :=
  (w +:+ substring 0 2 b, Some "short write").


(** Scalars and keys written out plainly, the entries of a map in the order
    [map_to_list] gives them: enough to see bytes reach the writer. *)
Definition render_scalar (v : Scalar) : string :=
  match v with
  | Null => "null"
  | Bool true => "true"
  | Bool false => "false"
  | Number lit => lit
  | Str s => "'" +:+ s +:+ "'"
  end.

Definition render_Marshal_map (aux : gmap string Scalar) : string + error :=
  inl ("{" +:+
       Join (map (fun kv => "'" +:+ fst kv +:+ "':" +:+ render_scalar (snd kv))
               (map_to_list aux)) "," +:+
       "}" +:+ newline).

Definition render_Marshal_array (aux : list (Scalar * Scalar))
  : string + error :=
  inl ("[" +:+
       Join (map (fun kv => "[" +:+ render_scalar (fst kv) +:+ "," +:+
                            render_scalar (snd kv) +:+ "]") aux) "," +:+
       "]" +:+ newline).

(** What a package-level function may return: bytes and no error, or an
    error and no bytes. *)
Definition bytes_xor_error (res : option string * option error) : Prop :=
  (is_Some (fst res) /\ snd res = None) \/
  (fst res = None /\ is_Some (snd res)).

(** * Properties *)

(** ** The run of a token list *)

Lemma bind_Done {A B : Type} (m : Run A) (k : A -> Run B) (b : B) :
  bind m k = Done b -> exists a, m = Done a /\ k a = Done b.
Proof. destruct m as [a|p]; simpl; [eauto | discriminate]. Qed.

Lemma run_tokens_app (st : State) (front back : list Token) :
  run_tokens st (front ++ back) =
  let* st' := run_tokens st front in run_tokens st' back.
Proof.
  revert st. induction front as [|tok front IH]; intros st; simpl; [done|].
  destruct (step st tok) as [st'|p]; simpl; [apply IH | done].
Qed.

(** When [dec.Token()] fails the accumulated pairs are dropped: if the walk
    got as far as the failing call, the result is [nil, err]. *)
Lemma parseJSON_failure (ts : list Token) (err : error) (st : State) :
  run_tokens init ts = Done st ->
  parseJSON (mkReader ts (Some err)) = Done ([], Some err).
Proof. intros Hrun. unfold parseJSON. simpl. rewrite Hrun. reflexivity. Qed.

(** ** The path stack never overflows *)

Lemma length_make (n : Z) : length (make n) = Z.to_nat n.
Proof. unfold make. apply length_replicate. Qed.

Lemma length_copy (dst src : list string) :
  (length src <= length dst)%nat -> length (copy dst src) = length dst.
Proof.
  intros Hle. unfold copy.
  rewrite length_app, length_take, length_drop. lia.
Qed.

Lemma index_set_length (s s' : list string) (i : Z) (x : string) :
  index_set s i x = Done s' -> length s' = length s.
Proof.
  unfold index_set. case_decide; [|discriminate].
  intros [= <-]. apply length_insert.
Qed.

Lemma init_in_capacity : in_capacity init.
Proof. unfold in_capacity. simpl. lia. Qed.

Lemma step_in_capacity (st st' : State) (tok : Token) :
  in_capacity st -> step st tok = Done st' -> in_capacity st'.
Proof.
  unfold in_capacity. intros [Hpos Hlen] Hstep.
  destruct tok as [[| | |]|v]; simpl in Hstep.
  - unfold on_lbrace in Hstep. injection Hstep as <-. simpl.
    case_decide as Hfull.
    + rewrite length_copy; rewrite length_make; lia.
    + lia.
  - unfold on_rbrace in Hstep.
    apply bind_Done in Hstep as (ps & _ & [= <-]). simpl. lia.
  - unfold on_lsquare in Hstep.
    apply bind_Done in Hstep as (k & _ & [= <-]). simpl. lia.
  - unfold on_rsquare in Hstep.
    apply bind_Done in Hstep as (ps & _ & [= <-]). simpl. lia.
  - destruct (onkey st).
    + unfold on_key in Hstep.
      apply bind_Done in Hstep as (s & _ & Hstep).
      apply bind_Done in Hstep as (p' & Hset & [= <-]). simpl.
      rewrite (index_set_length _ _ _ _ Hset). lia.
    + unfold on_value in Hstep.
      apply bind_Done in Hstep as (st1 & Hst1 & Hstep).
      apply bind_Done in Hstep as (k & _ & [= <-]). simpl.
      destruct (inarr st).
      * apply bind_Done in Hst1 as (p' & Hset & [= <-]). simpl.
        rewrite (index_set_length _ _ _ _ Hset).
        destruct (pos st <? 0); lia.
      * injection Hst1 as <-. simpl. lia.
Qed.

Lemma run_tokens_in_capacity (ts : list Token) (st st' : State) :
  in_capacity st -> run_tokens st ts = Done st' -> in_capacity st'.
Proof.
  revert st. induction ts as [|tok ts IH]; intros st Hcap Hrun; simpl in Hrun.
  - by injection Hrun as <-.
  - apply bind_Done in Hrun as (st1 & Hstep & Hrun).
    eauto using step_in_capacity.
Qed.

(** A bounds failure of a step taken within capacity is never at the upper
    end. *)
Lemma joined_key_below_zero (st : State) (p : Panic) :
  in_capacity st -> joined_key st = Panicked p -> below_zero p.
Proof.
  unfold in_capacity, joined_key, slice_to. intros [Hpos Hlen].
  case_decide as Hin; simpl; [discriminate|].
  intros [= <-]. simpl. lia.
Qed.

Lemma step_below_zero (st : State) (tok : Token) (p : Panic) :
  in_capacity st -> step st tok = Panicked p -> below_zero p.
Proof.
  intros Hcap Hstep. pose proof Hcap as [Hpos Hlen].
  destruct tok as [[| | |]|v]; simpl in Hstep.
  - discriminate.
  - unfold on_rbrace in Hstep.
    destruct (empty st && (0 <? pos st)); simpl in Hstep; [|discriminate].
    destruct (joined_key st) as [k|q] eqn:Hkey; simpl in Hstep; [discriminate|].
    injection Hstep as <-. eauto using joined_key_below_zero.
  - unfold on_lsquare in Hstep.
    destruct (0 <? pos st) eqn:Hp; simpl in Hstep; [|discriminate].
    unfold index_get in Hstep. case_decide; simpl in Hstep; [discriminate|].
    apply Z.ltb_lt in Hp. lia.
  - unfold on_rsquare in Hstep.
    destruct (empty st && (0 <=? pos st)); simpl in Hstep; [|discriminate].
    destruct (joined_key st) as [k|q] eqn:Hkey; simpl in Hstep; [discriminate|].
    injection Hstep as <-. eauto using joined_key_below_zero.
  - destruct (onkey st).
    + unfold on_key in Hstep.
      destruct v; simpl in Hstep; try (injection Hstep as <-; exact I).
      unfold index_set in Hstep. case_decide; simpl in Hstep; [discriminate|].
      injection Hstep as <-. simpl. lia.
    + destruct (on_value st v) as [st'|q] eqn:Hval; [discriminate|].
      injection Hstep as <-. unfold on_value in Hval.
      destruct (inarr st).
      * unfold index_set in Hval.
        case_decide as Hin; simpl in Hval.
        -- match type of Hval with
           | bind (joined_key ?s) _ = _ =>
               destruct (joined_key s) as [k|q'] eqn:Hkey; simpl in Hval;
               [discriminate|]; injection Hval as <-;
               apply (joined_key_below_zero s); [|done]
           end.
           unfold in_capacity. simpl. rewrite length_insert.
           destruct (pos st <? 0); lia.
        -- exfalso. destruct (pos st <? 0) eqn:Hp; [lia|].
           apply Z.ltb_ge in Hp. lia.
      * simpl in Hval.
        match type of Hval with
        | bind (joined_key ?s) _ = _ =>
            destruct (joined_key s) as [k|q'] eqn:Hkey; simpl in Hval;
            [discriminate|]; injection Hval as <-;
            apply (joined_key_below_zero s); [|done]
        end.
        done.
Qed.

(** Whatever the tokens, [parseJSON] never indexes or slices [path] beyond
    its length: the doubling in [case lbrace] is enough. *)
Lemma run_tokens_below_zero (ts : list Token) (st : State) (p : Panic) :
  in_capacity st -> run_tokens st ts = Panicked p -> below_zero p.
Proof.
  revert st. induction ts as [|tok ts IH]; intros st Hcap Hrun; simpl in Hrun.
  - discriminate.
  - destruct (step st tok) as [st1|q] eqn:Hstep; simpl in Hrun.
    + eauto using step_in_capacity.
    + injection Hrun as <-. eauto using step_below_zero.
Qed.

(** ** Flat objects *)

Lemma tokens_flat_object (fields : list (string * Scalar)) :
  tokens (flat_object fields) =
  TDelim lbrace :: field_tokens fields ++ [TDelim rbrace].
Proof.
  unfold flat_object. simpl. do 2 f_equal.
  induction fields as [|[k v] fields IH]; simpl; [done|].
  by rewrite IH.
Qed.

Lemma run_flat_field (st : State) (k : string) (v : Scalar) :
  at_root_key st ->
  exists st', run_tokens st [TValue (Str k); TValue v] = Done st' /\
              at_root_key st' /\ pairs st' = pairs st ++ [mkPair k v].
Proof.
  destruct st as [ps im ia em ok ai ak pa po].
  unfold at_root_key. simpl. intros (-> & -> & -> & -> & Hpath).
  destruct pa as [|seg pa]; [done|].
  eexists. split.
  - simpl. unfold on_key, on_value, joined_key, index_set, slice_to. simpl.
    case_decide as Hup; [|exfalso; lia]. simpl.
    reflexivity.
  - simpl. repeat split; done.
Qed.

Lemma run_flat_fields (fields : list (string * Scalar)) (st : State) :
  at_root_key st ->
  exists st', run_tokens st (field_tokens fields) = Done st' /\
              at_root_key st' /\
              pairs st' = pairs st ++ map field_pair fields.
Proof.
  revert st. induction fields as [|[k v] fields IH]; intros st Hst.
  - exists st. simpl. by rewrite app_nil_r.
  - destruct (run_flat_field st k v Hst) as (st1 & Hrun1 & Hst1 & Hps1).
    destruct (IH st1 Hst1) as (st2 & Hrun2 & Hst2 & Hps2).
    exists st2. split; [|split; [done|]].
    + change (field_tokens ((k, v) :: fields))
        with ([TValue (Str k); TValue v] ++ field_tokens fields).
      rewrite run_tokens_app, Hrun1. exact Hrun2.
    + rewrite Hps2, Hps1, <- app_assoc. reflexivity.
Qed.

(** ** Objects nested to any depth *)

Lemma tokens_nested (n : nat) (k : string) (v : Scalar) :
  tokens (nested n k v) =
  opening n k ++ TValue v :: replicate n (TDelim rbrace).
Proof.
  induction n as [|n IH]; simpl; [done|].
  rewrite IH, app_nil_r, <- app_assoc. simpl.
  by rewrite <- replicate_cons_app.
Qed.

(** Doubling keeps what the stack already holds. *)
Lemma copy_make_prefix (pa : list string) (m : Z) (n : nat) :
  (length pa <= Z.to_nat m)%nat -> (n <= length pa)%nat ->
  take n (copy (make m) pa) = take n pa.
Proof.
  intros Hfit Hn. unfold copy. rewrite length_make.
  rewrite (take_ge pa) by lia. by rewrite take_app_le.
Qed.

Lemma on_lbrace_prefix (st st' : State) (n : nat) :
  in_capacity st -> on_lbrace st = Done st' -> (n <= length (path st))%nat ->
  take n (path st') = take n (path st).
Proof.
  intros [Hpos Hlen] Hstep Hn. unfold on_lbrace in Hstep.
  injection Hstep as <-. simpl.
  case_decide as Hfull; [|done].
  apply copy_make_prefix; lia.
Qed.

Lemma descend_round (i : nat) (k : string) (st : State) :
  descended i k st ->
  exists st', run_tokens st [TDelim lbrace; TValue (Str k)] = Done st' /\
              descended (S i) k st'.
Proof.
  intros (Hpos & Htake & Harr & Hkey & Hpairs & Hcap).
  destruct (on_lbrace st) as [st1|] eqn:Hopen; [|discriminate].
  pose proof (step_in_capacity st st1 (TDelim lbrace) Hcap Hopen) as Hcap1.
  assert (Hi : (i <= length (path st))%nat) by (destruct Hcap; lia).
  pose proof (on_lbrace_prefix st st1 i Hcap Hopen Hi) as Hpre.
  pose proof Hopen as Hst1. unfold on_lbrace in Hst1. injection Hst1 as Hst1.
  assert (Hpos1 : pos st1 = Z.of_nat i) by (rewrite <- Hst1; simpl; lia).
  assert (Hinarr1 : inarr st1 = false) by (by rewrite <- Hst1).
  assert (Hpairs1 : pairs st1 = []) by (by rewrite <- Hst1).
  assert (Honkey1 : onkey st1 = true) by (by rewrite <- Hst1).
  clear Hst1.
  destruct Hcap1 as [Hlt1 Hlen1].
  eexists. split.
  - cbn [run_tokens step]. rewrite Hopen. cbn [bind]. rewrite Honkey1.
    unfold on_key, index_set. cbn [assert_string bind].
    case_decide as Hin; [|exfalso; lia]. cbn [bind]. reflexivity.
  - unfold descended, in_capacity. simpl.
    rewrite length_insert, Hpos1, Nat2Z.id.
    repeat split; try done; try lia.
    rewrite (take_S_r _ _ k) by (apply list_lookup_insert_eq; lia).
    rewrite take_insert_ge by lia.
    rewrite Hpre, Htake. by rewrite <- replicate_cons_app.
Qed.

Lemma descend (n : nat) (k : string) (i : nat) (st : State) :
  descended i k st ->
  exists st', run_tokens st (opening n k) = Done st' /\
              descended (n + i) k st'.
Proof.
  revert i st. induction n as [|n IH]; intros i st Hst.
  - exists st. by split.
  - destruct (descend_round i k st Hst) as (st1 & Hrun1 & Hst1).
    destruct (IH (S i) st1 Hst1) as (st2 & Hrun2 & Hst2).
    exists st2. split.
    + change (opening (S n) k)
        with ([TDelim lbrace; TValue (Str k)] ++ opening n k).
      rewrite run_tokens_app, Hrun1. exact Hrun2.
    + by replace (S n + i)%nat with (n + S i)%nat by lia.
Qed.

(** Closing braces after a value add no pair. *)
Lemma run_closing (n : nat) (st : State) :
  empty st = false ->
  exists st', run_tokens st (replicate n (TDelim rbrace)) = Done st' /\
              pairs st' = pairs st.
Proof.
  revert st. induction n as [|n IH]; intros st Hempty.
  - by exists st.
  - simpl. unfold on_rbrace. rewrite Hempty. simpl.
    match goal with
    | |- exists _, run_tokens ?s _ = _ /\ _ =>
        destruct (IH s) as (st' & Hrun & Hps); [done|]
    end.
    exists st'. by split.
Qed.

Lemma init_descended (k : string) : descended 0 k init.
Proof. unfold descended, in_capacity. simpl. repeat split; try done; lia. Qed.

(** A scalar under [n] nested objects comes out as one pair, its key the
    [n] segments joined by dots, however large [n] is: the path stack
    grows as the walk descends. *)
Lemma nested_objects_any_depth (n : nat) (k : string) (v : Scalar) :
  parseJSON (document (nested n k v)) =
  Done ([mkPair (Join (replicate n k) pathd) v], None).
Proof.
  unfold parseJSON, document. cbn [toks failure].
  rewrite tokens_nested, run_tokens_app.
  destruct (descend n k 0 init (init_descended k)) as (st1 & Hrun1 & Hst1).
  rewrite Hrun1. cbn [bind]. rewrite Nat.add_0_r in Hst1.
  destruct Hst1 as (Hpos & Htake & Harr & Hkey & Hpairs & Hlt & Hlen).
  cbn [run_tokens step]. rewrite Hkey.
  unfold on_value. rewrite Harr. cbn [bind].
  unfold joined_key, slice_to. cbn [path pos pairs].
  case_decide as Hin; [|exfalso; lia]. cbn [bind].
  replace (Z.to_nat (pos st1 + 1)) with n by lia.
  rewrite Htake, Hpairs.
  match goal with
  | |- bind (run_tokens ?s _) _ = _ =>
      destruct (run_closing n s) as (st2 & Hrun2 & Hps2); [done|]
  end.
  rewrite Hrun2. cbn [bind]. rewrite Hps2. reflexivity.
Qed.

(** ** The walker on the documents of the specification *)

(** C1 (defect in the code).  The package comment promises [hobbies.[0]]
    for an array under a key, and the test table [foo[0]]; on
    [{"foo": [1, 2]}] the walker returns the keys [[0]] and [[1]]: [case
    lsquare] takes the parent key only when [pos > 0], and the key of a
    member of the root object sits at [pos = 0], so the first element
    overwrites it.  One object deeper the parent key is kept, and the
    index follows it without a separator. *)
Theorem foo_array_keys_lose_parent :
  parseJSON (document foo_array) =
  Done ([mkPair "[0]" one; mkPair "[1]" two], None) /\
  parseJSON (document inner_foo_array) =
  Done ([mkPair "a.foo[0]" one; mkPair "a.foo[1]" two], None).
Proof. vm_compute. split; reflexivity. Qed.

(** C2 (defect in the code).  The number of pairs is not the number of leaf
    positions: [[[]]] has one leaf position, the inner empty array, and
    gives no pair, because arrays never advance [pos] and [case rsquare]
    asks for [pos >= 0]; [{"a": {"b": 1}, "c": 2, "d": 3}] has three and
    gives four, because closing the inner object clears [inmap] for the
    outer one and the key [d] is then taken for a value. *)
Theorem pair_count_differs_from_leaf_positions :
  (leaf_positions array_of_empty_array = 1%nat /\
   parseJSON (document array_of_empty_array) = Done ([], None)) /\
  (leaf_positions map_after_nested_map = 3%nat /\
   parseJSON (document map_after_nested_map) =
   Done ([mkPair "a.b" one; mkPair "c" two; mkPair "c" (Str "d");
          mkPair "c" three], None)).
Proof. vm_compute. repeat split. Qed.

(** C3 (defect in the code).  The index is the single byte [arridx[1]],
    advanced with [++]: the eleventh element of an array is keyed [[:]],
    the byte after ['9'], not [[10]].  Nor does a nested container advance
    the index: in [[[1], 2]] both scalars are keyed [[0]]. *)
Theorem eleventh_index_is_not_decimal :
  parseJSON (document eleven_nulls) =
  Done (map (fun k => mkPair k Null)
          ["[0]"; "[1]"; "[2]"; "[3]"; "[4]"; "[5]"; "[6]"; "[7]"; "[8]";
           "[9]"; "[:]"], None) /\
  parseJSON (document array_then_scalar) =
  Done ([mkPair "[0]" one; mkPair "[0]" two], None).
Proof. vm_compute. split; reflexivity. Qed.

(** C4 (defect in the code).  On [{"foo": {}}] the one pair returned has
    the key [foo.], with a trailing separator, not [foo] as the test table
    expects: [case lbrace] has already advanced [pos] to the empty object's
    own, unset slot when [case rbrace] joins [path[:pos+1]].  As an element
    of a root array ([[{}]]) the empty object gives no pair at all. *)
Theorem empty_map_key_has_trailing_separator :
  parseJSON (document foo_empty_map) = Done ([mkPair "foo." Null], None) /\
  parseJSON (document array_of_empty_map) = Done ([], None).
Proof. vm_compute. split; reflexivity. Qed.

(** C5 (defect in the code).  On the malformed input [[{},"x"}] the decoder
    reports its syntax error only at the stray brace; the walker has
    panicked one token earlier, writing [path[-1]], and so returns neither
    the error nor anything else. *)
Theorem stray_brace_panics_before_error :
  parseJSON stray_brace = Panicked (IndexOutOfRange (-1) 10).
Proof. vm_compute. reflexivity. Qed.

(** C6.  The documents [{}] and [[]] give no pair. *)
Theorem empty_root_yields_no_pairs :
  parseJSON (document (JObject [])) = Done ([], None) /\
  parseJSON (document (JArray [])) = Done ([], None).
Proof. split; reflexivity. Qed.

(** C7, counterexample.  The document [1e400] is a bare top-level scalar,
    a valid JSON number, yet [dec.Token()] fails on it and [parseJSON]
    returns the decoder's error and no pair. *)
Lemma huge_number_gives_error_not_pair :
  parseJSON huge_number = Done ([], Some (range_error "1e400")) /\
  parseJSON huge_number <> Done ([mkPair "" (Number "1e400")], None).
Proof. split; [reflexivity | discriminate]. Qed.

(** C7, as amended.  A document that is a bare scalar which the decoder
    tokenizes gives exactly one pair, with the empty string for key and the
    scalar for value. *)
Theorem tokenized_scalar_yields_empty_key (r : Reader) (v : Scalar) :
  tokenizes r (JScalar v) -> parseJSON r = Done ([mkPair "" v], None).
Proof.
  intros [Htoks Hfail]. unfold parseJSON. rewrite Htoks, Hfail. reflexivity.
Qed.

Lemma tokenized_scalar_yields_empty_key_witness :
  tokenizes (document (JScalar (Str "x"))) (JScalar (Str "x")) /\
  parseJSON (document (JScalar (Str "x"))) = Done ([mkPair "" (Str "x")], None).
Proof.
  assert (Htok : tokenizes (document (JScalar (Str "x"))) (JScalar (Str "x")))
    by (split; reflexivity).
  split; [exact Htok|].
  apply (tokenized_scalar_yields_empty_key (document (JScalar (Str "x")))
           (Str "x")).
  exact Htok.
Defined.

(** C8 (defect in the code).  The well-formed document [[{}, "x"]] makes
    the walker write [path[pos]] with [pos = -1]: closing the element
    object takes [pos] back to -1 and sets [onkey], so the string after it
    is stored as a key.  The write is out of bounds at the lower end; the
    doubling of the stack guards the upper end only
    ([run_tokens_below_zero], [nested_objects_any_depth]). *)
Theorem empty_map_then_string_index_below_zero :
  parseJSON (document empty_map_then_string) =
  Panicked (IndexOutOfRange (-1) 10).
Proof. vm_compute. reflexivity. Qed.

(** C9, counterexample.  [{"a": 1e400}] is a depth-1 object whose only
    value is a scalar, yet [dec.Token()] fails at the number and
    [parseJSON] returns the decoder's error and no pair. *)
Lemma huge_field_gives_error_not_pairs :
  parseJSON huge_field = Done ([], Some (range_error "1e400")) /\
  parseJSON huge_field <> Done ([mkPair "a" (Number "1e400")], None).
Proof. split; [reflexivity | discriminate]. Qed.

(** C9, as amended.  A depth-1 object whose values are all scalars, and
    which the decoder tokenizes, gives one pair per field, in order, the
    key being the field's name unchanged and the value the field's
    scalar. *)
Theorem tokenized_flat_object_pairs (r : Reader)
    (fields : list (string * Scalar)) :
  tokenizes r (flat_object fields) ->
  parseJSON r = Done (map (fun kv => mkPair (fst kv) (snd kv)) fields, None).
Proof.
  intros [Htoks Hfail]. unfold parseJSON. rewrite Htoks, Hfail.
  rewrite tokens_flat_object.
  change (TDelim lbrace :: field_tokens fields ++ [TDelim rbrace])
    with ([TDelim lbrace] ++ field_tokens fields ++ [TDelim rbrace]).
  rewrite run_tokens_app.
  destruct (run_tokens init [TDelim lbrace]) as [st0|] eqn:Hopen;
    [|discriminate].
  injection Hopen as Hst0.
  assert (Hroot : at_root_key st0) by (by rewrite <- Hst0).
  assert (Hnone : pairs st0 = []) by (by rewrite <- Hst0).
  destruct (run_flat_fields fields st0 Hroot) as (st1 & Hrun & Hst1 & Hps).
  cbn [bind]. rewrite run_tokens_app, Hrun. cbn [bind run_tokens step].
  destruct Hst1 as (_ & _ & _ & Hpos & _).
  unfold on_rbrace. rewrite Hpos, andb_false_r. cbn [bind pairs].
  by rewrite Hps, Hnone.
Qed.

Lemma tokenized_flat_object_pairs_witness :
  tokenizes (document (flat_object [("a", one); ("b", Str "x")]))
    (flat_object [("a", one); ("b", Str "x")]) /\
  parseJSON (document (flat_object [("a", one); ("b", Str "x")])) =
  Done (map (fun kv => mkPair (fst kv) (snd kv)) [("a", one); ("b", Str "x")],
        None).
Proof.
  assert (Htok : tokenizes (document (flat_object [("a", one); ("b", Str "x")]))
                   (flat_object [("a", one); ("b", Str "x")]))
    by (split; reflexivity).
  split; [exact Htok|].
  apply (tokenized_flat_object_pairs
           (document (flat_object [("a", one); ("b", Str "x")]))
           [("a", one); ("b", Str "x")]).
  exact Htok.
Defined.

(** C10.  When the standard encoding of [v] succeeds with the bytes [enc],
    [EncodeMap] leaves in the writer exactly what [ConvertMap] leaves when
    it reads [enc], and returns the same error; likewise [EncodeArray] and
    [ConvertArray]. *)
Theorem Encode_agrees_with_Convert {GoValue Writer : Type}
    (Encode : GoValue -> string + error) (NewBuffer : string -> Reader)
    (Marshal_array : list (Scalar * Scalar) -> string + error)
    (Marshal_map : gmap string Scalar -> string + error)
    (Write : Writer -> string -> Writer * option error)
    (w : Writer) (v : GoValue) (enc : string) :
  Encode v = inl enc ->
  EncodeMap Encode NewBuffer Marshal_map Write w v =
    ConvertMap Marshal_map Write w (NewBuffer enc) /\
  EncodeArray Encode NewBuffer Marshal_array Write w v =
    ConvertArray Marshal_array Write w (NewBuffer enc).
Proof.
  intros Henc. unfold EncodeMap, EncodeArray, ConvertMap, ConvertArray.
  rewrite Henc. split; reflexivity.
Qed.

Lemma Encode_agrees_with_Convert_witness :
  sample_Encode struct_lit = inl ("{}" +:+ newline) /\
  EncodeMap sample_Encode sample_NewBuffer sample_Marshal_map buffer_Write ""
    struct_lit =
    ConvertMap sample_Marshal_map buffer_Write ""
      (sample_NewBuffer ("{}" +:+ newline)) /\
  EncodeArray sample_Encode sample_NewBuffer sample_Marshal_array buffer_Write
    "" struct_lit =
    ConvertArray sample_Marshal_array buffer_Write ""
      (sample_NewBuffer ("{}" +:+ newline)).
Proof.
  split; [reflexivity|].
  apply (Encode_agrees_with_Convert sample_Encode sample_NewBuffer
           sample_Marshal_array sample_Marshal_map buffer_Write ""
           struct_lit ("{}" +:+ newline)).
  reflexivity.
Defined.

(** * Further properties of the code *)

(** ** What [parseJSON] returns, whatever the tokens *)

(** A step leaves [pairs] alone, or appends one pair: a [nil] value at a
    closing delimiter, or the token itself at a value. *)
Lemma step_emits (st st' : State) (tok : Token) :
  step st tok = Done st' ->
  pairs st' = pairs st \/
  (exists k, pairs st' = pairs st ++ [mkPair k Null] /\
             (tok = TDelim rbrace \/ tok = TDelim rsquare)) \/
  (exists k v, tok = TValue v /\ pairs st' = pairs st ++ [mkPair k v]).
Proof.
  intros Hstep. destruct tok as [[| | |]|v]; simpl in Hstep.
  - unfold on_lbrace in Hstep. injection Hstep as <-. by left.
  - unfold on_rbrace in Hstep.
    apply bind_Done in Hstep as (ps & Hps & [= <-]). simpl.
    destruct (empty st && (0 <? pos st)).
    + apply bind_Done in Hps as (k & _ & [= <-]). right; left. eauto.
    + injection Hps as <-. by left.
  - unfold on_lsquare in Hstep.
    apply bind_Done in Hstep as (k & _ & [= <-]). by left.
  - unfold on_rsquare in Hstep.
    apply bind_Done in Hstep as (ps & Hps & [= <-]). simpl.
    destruct (empty st && (0 <=? pos st)).
    + apply bind_Done in Hps as (k & _ & [= <-]). right; left. eauto.
    + injection Hps as <-. by left.
  - destruct (onkey st).
    + unfold on_key in Hstep.
      apply bind_Done in Hstep as (s & _ & Hstep).
      apply bind_Done in Hstep as (p' & _ & [= <-]). by left.
    + unfold on_value in Hstep.
      apply bind_Done in Hstep as (st1 & Hst1 & Hstep).
      apply bind_Done in Hstep as (k & _ & [= <-]). simpl.
      right; right. exists k, v. split; [done|]. f_equal.
      destruct (inarr st).
      * by apply bind_Done in Hst1 as (p' & _ & [= <-]).
      * by injection Hst1 as <-.
Qed.

Lemma run_tokens_emits (ts : list Token) (st st' : State) :
  run_tokens st ts = Done st' ->
  exists new,
    pairs st' = pairs st ++ new /\
    (length new <= length (filter may_emit ts))%nat /\
    Forall (fun p => Value p = Null \/ TValue (Value p) ∈ ts) new.
Proof.
  revert st. induction ts as [|tok ts IH]; intros st Hrun; simpl in Hrun.
  - injection Hrun as <-. exists []. by rewrite app_nil_r.
  - apply bind_Done in Hrun as (st1 & Hstep & Hrun).
    destruct (IH st1 Hrun) as (rest & Hps & Hlen & Hall).
    assert (Hweak : Forall (fun p => Value p = Null \/
                                     TValue (Value p) ∈ tok :: ts) rest).
    { eapply Forall_impl; [exact Hall|].
      intros p [Hn|Hin]; [by left | right; by apply elem_of_cons; right]. }
    destruct (step_emits st st1 tok Hstep)
      as [Hsame | [(k & Hnull & Hclose) | (k & v & -> & Hval)]].
    + exists rest. rewrite Hps, Hsame. split; [done|]. split; [|done].
      rewrite filter_cons. destruct (decide (may_emit tok)); simpl; lia.
    + exists (mkPair k Null :: rest). rewrite Hps, Hnull, <- app_assoc.
      split; [done|]. split.
      * rewrite filter_cons.
        destruct Hclose as [-> | ->]; simpl; lia.
      * constructor; [by left | done].
    + exists (mkPair k v :: rest). rewrite Hps, Hval, <- app_assoc.
      split; [done|]. split.
      * rewrite filter_cons. simpl. lia.
      * constructor; [|done]. right. simpl. apply elem_of_cons. by left.
Qed.

(** [Parse] is all or nothing: the error it returns is the one the decoder
    ended with, and with an error come no pairs. *)
Theorem Parse_all_or_nothing (r : Reader) (ps : list Pair)
    (err : option error) :
  Parse r = Done (ps, err) ->
  err = failure r /\ (failure r <> None -> ps = []).
Proof.
  unfold Parse, parseJSON. intros Hres.
  apply bind_Done in Hres as (st & _ & Hres).
  destruct (failure r) as [e|]; injection Hres as <- <-; by split.
Qed.

Lemma Parse_all_or_nothing_witness :
  Parse (mkReader [TValue one] (Some "unexpected end of JSON input")) =
    Done ([], Some "unexpected end of JSON input") /\
  (Some "unexpected end of JSON input" =
     failure (mkReader [TValue one] (Some "unexpected end of JSON input")) /\
   (failure (mkReader [TValue one] (Some "unexpected end of JSON input"))
      <> None -> [] = @nil Pair)).
Proof.
  split; [reflexivity|].
  apply (Parse_all_or_nothing
           (mkReader [TValue one] (Some "unexpected end of JSON input"))).
  reflexivity.
Defined.

(** Whatever the tokens, a panic of [parseJSON] is never an index or a
    slice bound past the end of [path]: the stack is doubled in time. *)
Theorem parseJSON_never_overruns_path (r : Reader) (p : Panic) :
  parseJSON r = Panicked p -> below_zero p.
Proof.
  unfold parseJSON. intros Hres.
  destruct (run_tokens init (toks r)) as [st|q] eqn:Hrun; simpl in Hres.
  - destruct (failure r); discriminate.
  - injection Hres as <-.
    eapply run_tokens_below_zero; [apply init_in_capacity | exact Hrun].
Qed.

Lemma parseJSON_never_overruns_path_witness :
  parseJSON stray_brace = Panicked (IndexOutOfRange (-1) 10) /\
  below_zero (IndexOutOfRange (-1) 10).
Proof.
  split; [reflexivity|].
  apply (parseJSON_never_overruns_path stray_brace). reflexivity.
Defined.

(** [parseJSON] returns at most one pair per token other than the opening
    delimiters. *)
Theorem parseJSON_pairs_bounded_by_tokens (r : Reader) (ps : list Pair)
    (err : option error) :
  parseJSON r = Done (ps, err) ->
  (length ps <= length (filter may_emit (toks r)))%nat.
Proof.
  unfold parseJSON. intros Hres.
  apply bind_Done in Hres as (st & Hrun & Hres).
  destruct (run_tokens_emits _ _ _ Hrun) as (new & Hps & Hlen & _).
  simpl in Hps. subst new.
  destruct (failure r); injection Hres as <- <-; simpl; [lia | done].
Qed.

Lemma parseJSON_pairs_bounded_by_tokens_witness :
  parseJSON (document foo_array) =
    Done ([mkPair "[0]" one; mkPair "[1]" two], None) /\
  (length [mkPair "[0]" one; mkPair "[1]" two] <=
     length (filter may_emit (toks (document foo_array))))%nat.
Proof.
  split; [reflexivity|].
  apply (parseJSON_pairs_bounded_by_tokens (document foo_array) _ None).
  reflexivity.
Defined.

(** Every value [parseJSON] returns is [nil] or one of the scalar tokens it
    read: no value is made up. *)
Theorem parseJSON_values_come_from_tokens (r : Reader) (ps : list Pair)
    (err : option error) (p : Pair) :
  parseJSON r = Done (ps, err) -> p ∈ ps ->
  Value p = Null \/ TValue (Value p) ∈ toks r.
Proof.
  unfold parseJSON. intros Hres Hin.
  apply bind_Done in Hres as (st & Hrun & Hres).
  destruct (run_tokens_emits _ _ _ Hrun) as (new & Hps & _ & Hall).
  simpl in Hps. subst new.
  destruct (failure r); injection Hres as <- <-.
  - by apply elem_of_nil in Hin.
  - rewrite Forall_forall in Hall. by apply Hall.
Qed.

Lemma parseJSON_values_come_from_tokens_witness :
  (parseJSON (document foo_array) =
     Done ([mkPair "[0]" one; mkPair "[1]" two], None) /\
   mkPair "[1]" two ∈ [mkPair "[0]" one; mkPair "[1]" two]) /\
  (Value (mkPair "[1]" two) = Null \/
   TValue (Value (mkPair "[1]" two)) ∈ toks (document foo_array)).
Proof.
  assert (Hin : mkPair "[1]" two ∈ [mkPair "[0]" one; mkPair "[1]" two])
    by (apply elem_of_cons; right; apply elem_of_cons; left; reflexivity).
  split; [split; [reflexivity | exact Hin]|].
  apply (parseJSON_values_come_from_tokens (document foo_array)
           [mkPair "[0]" one; mkPair "[1]" two] None);
    [reflexivity | exact Hin].
Defined.

(** ** Inputs on which [parseJSON] cannot panic *)

Lemma joined_key_Done (st : State) :
  in_capacity st -> -1 <= pos st -> exists k, joined_key st = Done k.
Proof.
  intros [Hpos Hlen] Hlow. unfold joined_key, slice_to.
  case_decide as Hin; [|exfalso; lia]. simpl. eauto.
Qed.

Lemma on_value_Done (st : State) (v : Scalar) :
  in_capacity st -> -1 <= pos st ->
  exists st', on_value st v = Done st' /\
    inmap st' = inmap st /\ inarr st' = inarr st /\
    onkey st' = (if inarr st then onkey st
                 else if inmap st then true else onkey st) /\
    pos st' = (if inarr st then (if pos st <? 0 then 0 else pos st)
               else pos st) /\
    empty st' = false.
Proof.
  intros Hcap Hlow. pose proof Hcap as [Hpos Hlen].
  unfold on_value. destruct (inarr st) eqn:Harr.
  - unfold index_set.
    case_decide as Hin;
      [|exfalso; destruct (pos st <? 0) eqn:Hp;
        [lia | apply Z.ltb_ge in Hp; lia]].
    cbn [bind].
    match goal with
    | |- exists _, bind (joined_key ?s) _ = _ /\ _ =>
        destruct (joined_key_Done s) as (k & ->)
    end.
    + unfold in_capacity. simpl. rewrite length_insert.
      destruct (pos st <? 0); lia.
    + simpl. destruct (pos st <? 0); lia.
    + eexists. split; [reflexivity|]. simpl. rewrite ?Harr. repeat split; done.
  - cbn [bind].
    match goal with
    | |- exists _, bind (joined_key ?s) _ = _ /\ _ =>
        destruct (joined_key_Done s) as (k & ->); [done | done |]
    end.
    eexists. split; [reflexivity|]. simpl. rewrite ?Harr. repeat split; done.
Qed.

Lemma step_outside_objects (st : State) (tok : Token) :
  outside_objects st -> brace tok = false ->
  exists st', step st tok = Done st' /\ outside_objects st'.
Proof.
  intros (Hkey & Hmap & Hlow & Hcap) Hbrace.
  assert (Hstep : exists st', step st tok = Done st' /\
            onkey st' = false /\ inmap st' = false /\ -1 <= pos st').
  { destruct tok as [[| | |]|v]; try discriminate; simpl.
    - unfold on_lsquare, index_get. destruct Hcap as [Hpos Hlen].
      destruct (0 <? pos st) eqn:Hp.
      + apply Z.ltb_lt in Hp. case_decide; [|exfalso; lia].
        eexists. split; [reflexivity|]. simpl. repeat split; done.
      + eexists. split; [reflexivity|]. simpl. repeat split; done.
    - unfold on_rsquare. destruct (empty st && (0 <=? pos st)).
      + destruct (joined_key_Done st Hcap Hlow) as (k & ->).
        eexists. split; [reflexivity|]. simpl. repeat split; done.
      + eexists. split; [reflexivity|]. simpl. repeat split; done.
    - rewrite Hkey.
      destruct (on_value_Done st v Hcap Hlow)
        as (st' & -> & Hm & Ha & Hk & Hp & _).
      exists st'. split; [done|]. rewrite Hk, Hm, Hp, Hkey, Hmap.
      repeat split; try done; destruct (inarr st); try done.
      destruct (pos st <? 0); lia. }
  destruct Hstep as (st' & Hstep & Hkey' & Hmap' & Hlow').
  exists st'. split; [done|]. repeat split; try done;
    apply (step_in_capacity st st' tok Hcap Hstep).
Qed.

Lemma run_outside_objects (ts : list Token) (st : State) :
  outside_objects st -> Forall (fun tok => brace tok = false) ts ->
  exists st', run_tokens st ts = Done st'.
Proof.
  revert st. induction ts as [|tok ts IH]; intros st Hst Hts; simpl.
  - eauto.
  - inversion Hts as [|? ? Htok Hrest]; subst.
    destruct (step_outside_objects st tok Hst Htok) as (st1 & -> & Hst1).
    simpl. by apply IH.
Qed.

(** A token stream without object delimiters, well formed or not, never
    makes [parseJSON] panic. *)
Theorem parseJSON_without_objects_returns (ts : list Token)
    (fin : option error) :
  Forall (fun tok => brace tok = false) ts ->
  exists ps, parseJSON (mkReader ts fin) = Done (ps, fin).
Proof.
  intros Hts. unfold parseJSON. cbn [toks failure].
  destruct (run_outside_objects ts init) as (st & ->); [|done|].
  - unfold outside_objects. repeat split; try done; apply init_in_capacity.
  - simpl. destruct fin; eauto.
Qed.

Lemma parseJSON_without_objects_returns_witness :
  Forall (fun tok => brace tok = false) (tokens array_then_scalar) /\
  exists ps, parseJSON (mkReader (tokens array_then_scalar) None) =
             Done (ps, None).
Proof.
  assert (Hts : Forall (fun tok => brace tok = false)
                  (tokens array_then_scalar))
    by (repeat constructor).
  split; [exact Hts|].
  apply (parseJSON_without_objects_returns (tokens array_then_scalar) None).
  exact Hts.
Defined.

Lemma objects_only_members (fields : list (string * JSON)) :
  objects_only (JObject fields) = true ->
  Forall (fun kv => objects_only (snd kv) = true) fields.
Proof.
  simpl. induction fields as [|[k v] fields IH]; intros Hall.
  - constructor.
  - apply andb_true_iff in Hall as [Hv Hrest]. constructor; [done|].
    by apply IH.
Qed.

(** A key token inside an object is stored as the key, or, when [onkey]
    was lost, emitted as a value; either way the walk goes on. *)
Lemma step_member_key (st : State) (k : string) :
  key_pos st ->
  exists st', step st (TValue (Str k)) = Done st' /\
              value_pos st' /\ pos st' = pos st.
Proof.
  intros (Harr & Hlow & Hcap & Hkey).
  assert (Hstep : exists st', step st (TValue (Str k)) = Done st' /\
            onkey st' = false /\ inarr st' = false /\ pos st' = pos st).
  { simpl. destruct (onkey st) eqn:Hon.
    - unfold on_key, index_set. cbn [assert_string bind].
      destruct Hcap as [Hpos Hlen].
      case_decide; [|exfalso; lia].
      eexists. split; [reflexivity|]. simpl. repeat split; done.
    - destruct Hkey as [Hkey|Hmap]; [discriminate|].
      destruct (on_value_Done st (Str k) Hcap)
        as (st' & -> & Hm & Ha & Hk & Hp & _); [lia|].
      exists st'. split; [done|].
      rewrite Hk, Ha, Hp, Harr, Hmap, Hon. repeat split; done. }
  destruct Hstep as (st' & Hstep & Hon' & Harr' & Hpos').
  exists st'. split; [done|]. split; [|done].
  unfold value_pos. rewrite Hpos'. repeat split; try done; try lia;
    apply (step_in_capacity st st' _ Hcap Hstep).
Qed.

Lemma walk_members (fields : list (string * JSON)) :
  Forall (fun kv => forall st, value_pos st ->
            exists st', run_tokens st (tokens (snd kv)) = Done st' /\
                        after_value st st') fields ->
  forall st, key_pos st ->
  exists st', run_tokens st (member_tokens fields) = Done st' /\
              key_pos st' /\ pos st' = pos st.
Proof.
  induction 1 as [|[k v] fields Hv _ IH]; intros st Hst.
  - exists st. by split.
  - destruct (step_member_key st k Hst) as (st1 & Hstep & Hst1 & Hpos1).
    destruct (Hv st1 Hst1) as (st2 & Hrun2 & Hpos2 & Harr2 & Hcap2 & Hkey2).
    assert (Hst2 : key_pos st2).
    { destruct Hst as (_ & Hlow & _). unfold key_pos.
      repeat split; try done; try lia; apply Hcap2. }
    destruct (IH st2 Hst2) as (st3 & Hrun3 & Hst3 & Hpos3).
    exists st3. split; [|split; [done | lia]].
    change (member_tokens ((k, v) :: fields))
      with ([TValue (Str k)] ++ tokens v ++ member_tokens fields).
    rewrite run_tokens_app. cbn [run_tokens]. rewrite Hstep. cbn [bind].
    rewrite run_tokens_app. simpl in Hrun2. rewrite Hrun2. exact Hrun3.
Qed.

Lemma walk_objects_only (j : JSON) :
  objects_only j = true ->
  forall st, value_pos st ->
  exists st', run_tokens st (tokens j) = Done st' /\ after_value st st'.
Proof.
  induction j as [v|fields IH|elems _] using JSON_induction;
    intros Hobj st (Hkey & Harr & Hlow & Hcap).
  - cbn [tokens run_tokens step]. rewrite Hkey.
    destruct (on_value_Done st v Hcap Hlow)
      as (st' & Hval & Hm & Ha & Hk & Hp & _).
    rewrite Hval. cbn [bind]. exists st'. split; [done|].
    unfold after_value. rewrite Ha, Hk, Hp, Hm, Harr. repeat split.
    + apply (step_in_capacity st st' (TValue v) Hcap).
      simpl. by rewrite Hkey.
    + apply (step_in_capacity st st' (TValue v) Hcap).
      simpl. by rewrite Hkey.
    + destruct (inmap st); [by left | by right].
  - apply objects_only_members in Hobj.
    assert (Hall : Forall (fun kv => forall st, value_pos st ->
              exists st', run_tokens st (tokens (snd kv)) = Done st' /\
                          after_value st st') fields).
    { rewrite Forall_forall in IH, Hobj |- *. intros kv Hin.
      apply IH; [done|]. by apply Hobj. }
    destruct (on_lbrace st) as [st1|] eqn:Hopen; [|discriminate].
    pose proof (step_in_capacity st st1 (TDelim lbrace) Hcap Hopen) as Hcap1.
    pose proof Hopen as Hst1. unfold on_lbrace in Hst1.
    injection Hst1 as Hst1.
    assert (Hkp1 : key_pos st1).
    { unfold key_pos. rewrite <- Hst1 at 1 2 4. simpl.
      split; [done|]. split; [lia|]. split; [done | by left]. }
    assert (Hpos1 : pos st1 = pos st + 1) by (by rewrite <- Hst1).
    clear Hst1.
    destruct (walk_members fields Hall st1 Hkp1)
      as (st2 & Hrun2 & (Harr2 & Hlow2 & Hcap2 & Hkey2) & Hpos2).
    assert (Hclose : exists st3, on_rbrace st2 = Done st3 /\
              pos st3 = pos st2 - 1 /\ inarr st3 = false /\
              onkey st3 = true).
    { unfold on_rbrace. destruct (empty st2 && (0 <? pos st2)).
      - destruct (joined_key_Done st2 Hcap2) as (key & ->); [lia|].
        eexists. split; [reflexivity|]. simpl. repeat split; done.
      - eexists. split; [reflexivity|]. simpl. repeat split; done. }
    destruct Hclose as (st3 & Hclose & Hpos3 & Harr3 & Hkey3).
    exists st3. split.
    + change (tokens (JObject fields))
        with ([TDelim lbrace] ++ member_tokens fields ++ [TDelim rbrace]).
      rewrite run_tokens_app. cbn [run_tokens step]. rewrite Hopen.
      cbn [bind]. rewrite run_tokens_app, Hrun2. cbn [bind run_tokens step].
      by rewrite Hclose.
    + unfold after_value. repeat split; try done; try lia.
      * apply (step_in_capacity st2 st3 (TDelim rbrace) Hcap2 Hclose).
      * apply (step_in_capacity st2 st3 (TDelim rbrace) Hcap2 Hclose).
      * by left.
  - discriminate.
Qed.

Lemma run_tokens_prefix (st st' : State) (front back : list Token) :
  run_tokens st (front ++ back) = Done st' ->
  exists st1, run_tokens st front = Done st1.
Proof.
  rewrite run_tokens_app. intros Hrun.
  apply bind_Done in Hrun as (st1 & Hfront & _). eauto.
Qed.

(** On a document made of objects and scalars, without arrays, [parseJSON]
    never panics, however deep the nesting and wherever the decoder stops:
    it returns pairs at [io.EOF], or the decoder's error. *)
Theorem parseJSON_objects_only_never_panics (j : JSON) (r : Reader) :
  objects_only j = true -> toks r `prefix_of` tokens j ->
  exists ps, parseJSON r = Done (ps, failure r).
Proof.
  intros Hobj [rest Hrest]. unfold parseJSON.
  destruct (walk_objects_only j Hobj init) as (st & Hrun & _).
  { unfold value_pos. repeat split; try done; apply init_in_capacity. }
  rewrite Hrest in Hrun.
  apply run_tokens_prefix in Hrun as (st1 & ->). simpl.
  destruct (failure r); eauto.
Qed.

Lemma parseJSON_objects_only_never_panics_witness :
  (objects_only (JObject [("a", JScalar (Number "1e400"))]) = true /\
   toks huge_field `prefix_of`
     tokens (JObject [("a", JScalar (Number "1e400"))])) /\
  exists ps, parseJSON huge_field = Done (ps, failure huge_field).
Proof.
  assert (Hpre : toks huge_field `prefix_of`
                   tokens (JObject [("a", JScalar (Number "1e400"))]))
    by (exists [TValue (Number "1e400"); TDelim rbrace]; reflexivity).
  split; [split; [reflexivity | exact Hpre]|].
  apply (parseJSON_objects_only_never_panics
           (JObject [("a", JScalar (Number "1e400"))]) huge_field);
    [reflexivity | exact Hpre].
Defined.

(** ** A root array of scalars *)

Lemma byte_incr_index_byte (i : nat) :
  byte_incr (index_byte i) = index_byte (S i).
Proof.
  unfold byte_incr, index_byte.
  rewrite N_ascii_embedding by (apply N.mod_upper_bound; lia).
  rewrite N.Div0.add_mod_idemp_l. f_equal. f_equal. lia.
Qed.

Lemma tokens_scalar_array (vs : list Scalar) :
  tokens (scalar_array vs) =
  TDelim lsquare :: map TValue vs ++ [TDelim rsquare].
Proof.
  unfold scalar_array. simpl. do 2 f_equal.
  induction vs as [|v vs IH]; simpl; [done|]. by rewrite IH.
Qed.

Lemma step_array_element (i : nat) (st : State) (v : Scalar) :
  in_root_array i st ->
  exists st', step st (TValue v) = Done st' /\
              in_root_array (S i) st' /\
              pairs st' = pairs st ++ [mkPair (index_key i) v].
Proof.
  destruct st as [ps im ia em ok ai ak pa po].
  unfold in_root_array. simpl.
  intros (-> & -> & -> & -> & Hpos & Hpath & _).
  destruct pa as [|seg pa]; [done|].
  assert (Hzero : (if po <? 0 then 0 else po) = 0)
    by (destruct Hpos as [-> | ->]; reflexivity).
  eexists. split.
  - unfold on_value. cbn [inarr pos path arrkey arridx]. rewrite Hzero.
    unfold index_set. case_decide as Hin; [|exfalso; simpl in Hin; lia].
    cbn [bind]. unfold joined_key, slice_to. cbn [path pos].
    case_decide as Hup;
      [|exfalso; rewrite length_insert in Hup; simpl in Hup; lia].
    cbn [bind]. reflexivity.
  - simpl. rewrite byte_incr_index_byte.
    repeat split; try done; first [by left | by right].
Qed.

Lemma walk_array_elements (vs : list Scalar) (i : nat) (st : State) :
  in_root_array i st ->
  exists st', run_tokens st (map TValue vs) = Done st' /\
              in_root_array (i + length vs) st' /\
              pairs st' =
              pairs st ++ imap (fun j v => mkPair (index_key (i + j)) v) vs.
Proof.
  revert i st. induction vs as [|v vs IH]; intros i st Hst.
  - exists st. simpl. rewrite Nat.add_0_r, app_nil_r. by split.
  - destruct (step_array_element i st v Hst) as (st1 & Hstep & Hst1 & Hps1).
    destruct (IH (S i) st1 Hst1) as (st2 & Hrun2 & Hst2 & Hps2).
    exists st2. split; [|split].
    + cbn [map run_tokens]. rewrite Hstep. exact Hrun2.
    + simpl. by replace (i + S (length vs))%nat
          with (S i + length vs)%nat by lia.
    + rewrite Hps2, Hps1, <- app_assoc. simpl. rewrite Nat.add_0_r.
      do 2 f_equal. apply imap_ext. intros j x _. simpl.
      by replace (i + S j)%nat with (S (i + j)) by lia.
Qed.

Lemma walk_scalar_array (vs : list Scalar) :
  exists st, run_tokens init (tokens (scalar_array vs)) = Done st /\
             pairs st = imap (fun i v => mkPair (index_key i) v) vs.
Proof.
  rewrite tokens_scalar_array.
  change (TDelim lsquare :: map TValue vs ++ [TDelim rsquare])
    with ([TDelim lsquare] ++ map TValue vs ++ [TDelim rsquare]).
  rewrite run_tokens_app.
  destruct (run_tokens init [TDelim lsquare]) as [st0|] eqn:Hopen;
    [|discriminate].
  injection Hopen as Hst0.
  assert (Harr : in_root_array 0 st0).
  { rewrite <- Hst0. unfold in_root_array. simpl.
    repeat split; try done; first [by left | by right]. }
  assert (Hnone : pairs st0 = []) by (by rewrite <- Hst0).
  destruct (walk_array_elements vs 0 st0 Harr) as (st1 & Hrun & Hst1 & Hps).
  cbn [bind]. rewrite run_tokens_app, Hrun. cbn [bind run_tokens step].
  destruct Hst1 as (_ & _ & _ & _ & Hpos & _ & Hempty).
  unfold on_rsquare.
  assert (Hquiet : empty st1 && (0 <=? pos st1) = false).
  { destruct Hempty as [-> | ->]; [done|]. apply andb_false_r. }
  rewrite Hquiet. cbn [bind]. eexists. split; [reflexivity|].
  simpl. by rewrite Hps, Hnone.
Qed.

(** For a root array of scalars that the decoder tokenizes, the [i]-th
    pair has the [i]-th scalar for value, and for key a bracketed single
    byte: ['0'] advanced [i] times, wrapping at 256. *)
Theorem tokenized_scalar_array_keys_are_one_byte (r : Reader)
    (vs : list Scalar) :
  tokenizes r (scalar_array vs) ->
  parseJSON r = Done (imap (fun i v => mkPair (index_key i) v) vs, None).
Proof.
  intros [Htoks Hfail]. unfold parseJSON. rewrite Htoks, Hfail.
  destruct (walk_scalar_array vs) as (st & -> & Hps).
  simpl. by rewrite Hps.
Qed.

Lemma tokenized_scalar_array_keys_are_one_byte_witness :
  tokenizes (document eleven_nulls) (scalar_array (replicate 11 Null)) /\
  parseJSON (document eleven_nulls) =
  Done (imap (fun i v => mkPair (index_key i) v) (replicate 11 Null), None).
Proof.
  assert (Htok : tokenizes (document eleven_nulls)
                   (scalar_array (replicate 11 Null)))
    by (split; reflexivity).
  split; [exact Htok|].
  apply (tokenized_scalar_array_keys_are_one_byte (document eleven_nulls)
           (replicate 11 Null)).
  exact Htok.
Defined.

Lemma index_key_decimal (i : nat) :
  (i < 10)%nat -> index_key i = "[" +:+ pretty i +:+ "]".
Proof.
  intros Hi. do 10 (destruct i as [|i]; [reflexivity|]). lia.
Qed.

(** A root array of at most ten scalars that the decoder tokenizes flattens
    to the keys [[0]], [[1]], ... in decimal, each with its scalar, in
    order. *)
Theorem tokenized_short_scalar_array_keys_are_decimal (r : Reader)
    (vs : list Scalar) :
  (length vs <= 10)%nat -> tokenizes r (scalar_array vs) ->
  parseJSON r =
  Done (imap (fun i v => mkPair ("[" +:+ pretty i +:+ "]") v) vs, None).
Proof.
  intros Hlen [Htoks Hfail]. unfold parseJSON. rewrite Htoks, Hfail.
  destruct (walk_scalar_array vs) as (st & -> & Hps).
  simpl. rewrite Hps. do 2 f_equal. apply imap_ext. intros i v Hi.
  apply lookup_lt_Some in Hi. rewrite index_key_decimal by lia. done.
Qed.

Lemma tokenized_short_scalar_array_keys_are_decimal_witness :
  ((length [Bool true; Null; Str "x"] <= 10)%nat /\
   tokenizes (document (scalar_array [Bool true; Null; Str "x"]))
     (scalar_array [Bool true; Null; Str "x"])) /\
  parseJSON (document (scalar_array [Bool true; Null; Str "x"])) =
  Done (imap (fun i v => mkPair ("[" +:+ pretty i +:+ "]") v)
          [Bool true; Null; Str "x"], None).
Proof.
  assert (Htok : tokenizes (document (scalar_array [Bool true; Null; Str "x"]))
                   (scalar_array [Bool true; Null; Str "x"]))
    by (split; reflexivity).
  split; [split; [simpl; lia | exact Htok]|].
  apply (tokenized_short_scalar_array_keys_are_decimal
           (document (scalar_array [Bool true; Null; Str "x"]))
           [Bool true; Null; Str "x"]); [simpl; lia | exact Htok].
Defined.

(** ** Values under nested objects *)

Lemma tokens_chain (ks : list string) (leaf : JSON) :
  tokens (chain ks leaf) =
  opening_along ks ++ tokens leaf ++ replicate (length ks) (TDelim rbrace).
Proof.
  induction ks as [|k ks IH]; simpl; [by rewrite app_nil_r|].
  rewrite IH, app_nil_r, <- !app_assoc. simpl.
  by rewrite <- replicate_cons_app.
Qed.

Lemma take_insert_next (pa : list string) (n : nat) (k : string) :
  (n < length pa)%nat -> take (S n) (<[n := k]> pa) = take n pa ++ [k].
Proof.
  intros Hn. rewrite (take_S_r _ _ k) by (by apply list_lookup_insert_eq).
  by rewrite take_insert_ge by lia.
Qed.

Lemma descend_key (ks : list string) (k : string) (st : State) :
  descended_along ks st ->
  exists st', run_tokens st [TDelim lbrace; TValue (Str k)] = Done st' /\
              descended_along (ks ++ [k]) st'.
Proof.
  intros (Hpos & Htake & Harr & Hkey & Hpairs & Hcap).
  destruct (on_lbrace st) as [st1|] eqn:Hopen; [|discriminate].
  pose proof (step_in_capacity st st1 (TDelim lbrace) Hcap Hopen) as Hcap1.
  assert (Hn : (length ks <= length (path st))%nat) by (destruct Hcap; lia).
  pose proof (on_lbrace_prefix st st1 _ Hcap Hopen Hn) as Hpre.
  pose proof Hopen as Hst1. unfold on_lbrace in Hst1. injection Hst1 as Hst1.
  assert (Hpos1 : pos st1 = Z.of_nat (length ks))
    by (rewrite <- Hst1; simpl; lia).
  assert (Hinarr1 : inarr st1 = false) by (by rewrite <- Hst1).
  assert (Hpairs1 : pairs st1 = []) by (by rewrite <- Hst1).
  assert (Honkey1 : onkey st1 = true) by (by rewrite <- Hst1).
  clear Hst1. destruct Hcap1 as [Hlt1 Hlen1].
  eexists. split.
  - cbn [run_tokens step]. rewrite Hopen. cbn [bind]. rewrite Honkey1.
    unfold on_key, index_set. cbn [assert_string bind].
    case_decide as Hin; [|exfalso; lia]. cbn [bind]. reflexivity.
  - unfold descended_along, in_capacity. simpl.
    rewrite length_insert, length_app, Hpos1, Nat2Z.id. simpl.
    repeat split; try done; try lia.
    replace (length ks + 1)%nat with (S (length ks)) by lia.
    rewrite take_insert_next by lia. by rewrite Hpre, Htake.
Qed.

Lemma descend_keys (more ks : list string) (st : State) :
  descended_along ks st ->
  exists st', run_tokens st (opening_along more) = Done st' /\
              descended_along (ks ++ more) st'.
Proof.
  revert ks st. induction more as [|k more IH]; intros ks st Hst.
  - exists st. rewrite app_nil_r. by split.
  - destruct (descend_key ks k st Hst) as (st1 & Hrun1 & Hst1).
    destruct (IH (ks ++ [k]) st1 Hst1) as (st2 & Hrun2 & Hst2).
    exists st2. split.
    + change (opening_along (k :: more))
        with ([TDelim lbrace; TValue (Str k)] ++ opening_along more).
      rewrite run_tokens_app, Hrun1. exact Hrun2.
    + by rewrite <- app_assoc in Hst2.
Qed.

Lemma init_descended_along : descended_along [] init.
Proof.
  unfold descended_along, in_capacity. simpl. repeat split; try done; lia.
Qed.

(** A scalar under objects nested along the keys [k1 ... kn], for any [n],
    in a document the decoder tokenizes, gives the single pair keyed
    [k1.k2. ... .kn]. *)
Theorem tokenized_scalar_under_keys (r : Reader) (ks : list string)
    (v : Scalar) :
  tokenizes r (chain ks (JScalar v)) ->
  parseJSON r = Done ([mkPair (Join ks pathd) v], None).
Proof.
  intros [Htoks Hfail]. unfold parseJSON. rewrite Htoks, Hfail.
  rewrite tokens_chain, run_tokens_app.
  destruct (descend_keys ks [] init init_descended_along)
    as (st1 & Hrun1 & Hst1).
  rewrite Hrun1. cbn [bind]. simpl in Hst1.
  destruct Hst1 as (Hpos & Htake & Harr & Hkey & Hpairs & Hlt & Hlen).
  cbn [tokens app run_tokens step]. rewrite Hkey.
  unfold on_value. rewrite Harr. cbn [bind].
  unfold joined_key, slice_to. cbn [path pos pairs].
  case_decide as Hin; [|exfalso; lia]. cbn [bind].
  replace (Z.to_nat (pos st1 + 1)) with (length ks) by lia.
  rewrite Htake, Hpairs.
  match goal with
  | |- bind (run_tokens ?s _) _ = _ =>
      destruct (run_closing (length ks) s) as (st2 & Hrun2 & Hps2); [done|]
  end.
  rewrite Hrun2. cbn [bind]. rewrite Hps2. reflexivity.
Qed.

Lemma tokenized_scalar_under_keys_witness :
  tokenizes (document (chain ["a"; "b"; "c"] (JScalar (Bool true))))
    (chain ["a"; "b"; "c"] (JScalar (Bool true))) /\
  parseJSON (document (chain ["a"; "b"; "c"] (JScalar (Bool true)))) =
  Done ([mkPair (Join ["a"; "b"; "c"] pathd) (Bool true)], None).
Proof.
  assert (Htok : tokenizes
                   (document (chain ["a"; "b"; "c"] (JScalar (Bool true))))
                   (chain ["a"; "b"; "c"] (JScalar (Bool true))))
    by (split; reflexivity).
  split; [exact Htok|].
  apply (tokenized_scalar_under_keys
           (document (chain ["a"; "b"; "c"] (JScalar (Bool true))))
           ["a"; "b"; "c"] (Bool true)).
  exact Htok.
Defined.

Lemma open_under (ks : list string) (st : State) :
  descended_along ks st ->
  exists st', step st (TDelim lbrace) = Done st' /\
              at_key_under ks st' /\ pairs st' = [].
Proof.
  intros (Hpos & Htake & Harr & Hkey & Hpairs & Hcap).
  destruct (on_lbrace st) as [st1|] eqn:Hopen; [|discriminate].
  pose proof (step_in_capacity st st1 (TDelim lbrace) Hcap Hopen) as Hcap1.
  assert (Hn : (length ks <= length (path st))%nat) by (destruct Hcap; lia).
  pose proof (on_lbrace_prefix st st1 _ Hcap Hopen Hn) as Hpre.
  exists st1. split; [done|].
  unfold on_lbrace in Hopen. injection Hopen as Hst1.
  unfold at_key_under. rewrite Hpre, Htake.
  assert (Hflags : inmap st1 = true /\ inarr st1 = false /\
            onkey st1 = true /\ pos st1 = pos st + 1 /\ pairs st1 = [])
    by (rewrite <- Hst1; simpl; repeat split; done).
  destruct Hflags as (? & ? & ? & ? & ?).
  repeat split; try done; try lia; apply Hcap1.
Qed.

Lemma run_field_under (ks : list string) (st : State) (k : string)
    (v : Scalar) :
  at_key_under ks st ->
  exists st', run_tokens st [TValue (Str k); TValue v] = Done st' /\
              at_key_under ks st' /\ empty st' = false /\
              pairs st' = pairs st ++ [mkPair (Join (ks ++ [k]) pathd) v].
Proof.
  destruct st as [ps im ia em ok ai ak pa po].
  unfold at_key_under, in_capacity. simpl.
  intros (-> & -> & -> & -> & Htake & Hlt & Hlen).
  eexists. split.
  - simpl. unfold on_key, index_set. cbn [assert_string bind path pos].
    case_decide as Hin; [|exfalso; lia]. cbn [bind onkey].
    unfold on_value. cbn [inarr inmap bind]. unfold joined_key, slice_to.
    cbn [path pos].
    case_decide as Hup; [|exfalso; rewrite length_insert in Hup; lia].
    cbn [bind pairs]. reflexivity.
  - simpl. rewrite length_insert, Nat2Z.id.
    rewrite take_insert_ge by lia.
    repeat split; try done.
    replace (Z.to_nat (Z.of_nat (length ks) + 1)) with (S (length ks))
      by lia.
    rewrite take_insert_next by lia. by rewrite Htake.
Qed.

Lemma run_fields_under (ks : list string) (fields : list (string * Scalar))
    (st : State) :
  at_key_under ks st ->
  exists st', run_tokens st (field_tokens fields) = Done st' /\
              at_key_under ks st' /\
              (fields <> [] -> empty st' = false) /\
              pairs st' =
              pairs st ++
              map (fun kv => mkPair (Join (ks ++ [fst kv]) pathd) (snd kv))
                fields.
Proof.
  revert st. induction fields as [|[k v] fields IH]; intros st Hst.
  - exists st. simpl. rewrite app_nil_r.
    split; [done|]. split; [done|]. split; [intros Hne; by destruct Hne | done].
  - destruct (run_field_under ks st k v Hst)
      as (st1 & Hrun1 & Hst1 & Hempty1 & Hps1).
    destruct (IH st1 Hst1) as (st2 & Hrun2 & Hst2 & Hempty2 & Hps2).
    exists st2. split; [|split; [done|split]].
    + change (field_tokens ((k, v) :: fields))
        with ([TValue (Str k); TValue v] ++ field_tokens fields).
      rewrite run_tokens_app, Hrun1. exact Hrun2.
    + intros _. destruct fields as [|f fields]; [|by apply Hempty2].
      simpl in Hrun2. by injection Hrun2 as <-.
    + rewrite Hps2, Hps1, <- app_assoc. reflexivity.
Qed.

(** An object of scalar fields, with at least one field, under objects
    nested along the keys [k1 ... kn], in a document the decoder
    tokenizes: every field [k: v] gives the pair keyed [k1. ... .kn.k] with
    the value [v], in order. *)
Theorem tokenized_fields_under_keys (r : Reader) (ks : list string)
    (f : string * Scalar) (fs : list (string * Scalar)) :
  tokenizes r (chain ks (flat_object (f :: fs))) ->
  parseJSON r =
  Done (map (fun kv => mkPair (Join (ks ++ [fst kv]) pathd) (snd kv))
          (f :: fs), None).
Proof.
  intros [Htoks Hfail]. unfold parseJSON. rewrite Htoks, Hfail.
  rewrite tokens_chain, run_tokens_app.
  destruct (descend_keys ks [] init init_descended_along)
    as (st1 & Hrun1 & Hst1).
  rewrite Hrun1. cbn [bind]. simpl in Hst1.
  rewrite tokens_flat_object.
  destruct (open_under ks st1 Hst1) as (st2 & Hopen & Hst2 & Hnone).
  cbn [app run_tokens]. rewrite Hopen. cbn [bind].
  rewrite <- app_assoc, run_tokens_app.
  destruct (run_fields_under ks (f :: fs) st2 Hst2)
    as (st3 & Hrun3 & _ & Hempty & Hps).
  rewrite Hrun3. cbn [bind].
  change ([TDelim rbrace] ++ replicate (length ks) (TDelim rbrace))
    with (replicate (S (length ks)) (TDelim rbrace)).
  destruct (run_closing (S (length ks)) st3) as (st4 & Hrun4 & Hps4);
    [by apply Hempty|].
  rewrite Hrun4. cbn [bind]. by rewrite Hps4, Hps, Hnone.
Qed.

Lemma tokenized_fields_under_keys_witness :
  tokenizes
    (document (chain ["a"; "b"] (flat_object [("x", one); ("y", Str "z")])))
    (chain ["a"; "b"] (flat_object (("x", one) :: [("y", Str "z")]))) /\
  parseJSON
    (document (chain ["a"; "b"] (flat_object [("x", one); ("y", Str "z")]))) =
  Done (map (fun kv => mkPair (Join (["a"; "b"] ++ [fst kv]) pathd) (snd kv))
          (("x", one) :: [("y", Str "z")]), None).
Proof.
  assert (Htok : tokenizes
            (document
               (chain ["a"; "b"] (flat_object [("x", one); ("y", Str "z")])))
            (chain ["a"; "b"] (flat_object (("x", one) :: [("y", Str "z")]))))
    by (split; reflexivity).
  split; [exact Htok|].
  apply (tokenized_fields_under_keys
           (document
              (chain ["a"; "b"] (flat_object [("x", one); ("y", Str "z")])))
           ["a"; "b"] ("x", one) [("y", Str "z")]).
  exact Htok.
Defined.

(** ** The map and the array handed to [json.Marshal] *)

Lemma mapPairs_aux_snoc (m : list Pair) (p : Pair) :
  mapPairs_aux (m ++ [p]) = <[Key p := Value p]> (mapPairs_aux m).
Proof. unfold mapPairs_aux. by rewrite foldl_app. Qed.

(** In the map of [mapPairs.MarshalJSON] a key holds the value of the last
    pair that carries it. *)
Theorem mapPairs_aux_last_write_wins (front back : list Pair) (p : Pair) :
  Key p ∉ Key <$> back ->
  mapPairs_aux (front ++ p :: back) !! Key p = Some (Value p).
Proof.
  induction back as [|q back IH] using rev_ind; intros Hlast.
  - rewrite mapPairs_aux_snoc. apply lookup_insert_eq.
  - rewrite fmap_app, not_elem_of_app in Hlast. destruct Hlast as [Hback Hq].
    change (front ++ p :: back ++ [q]) with (front ++ (p :: back) ++ [q]).
    rewrite app_assoc, mapPairs_aux_snoc.
    rewrite lookup_insert_ne; [by apply IH|].
    intros Heq. apply Hq. simpl. rewrite Heq. apply list_elem_of_singleton.
    reflexivity.
Qed.

Lemma mapPairs_aux_last_write_wins_witness :
  (Key (mkPair "a" three) ∉ Key <$> @nil Pair) /\
  (mapPairs_aux ([mkPair "a" one; mkPair "b" two] ++ mkPair "a" three :: []))
    !! (Key (mkPair "a" three)) = Some (Value (mkPair "a" three)).
Proof.
  assert (Hlast : Key (mkPair "a" three) ∉ (Key <$> @nil Pair))
    by (simpl; apply not_elem_of_nil).
  split; [exact Hlast|].
  apply (mapPairs_aux_last_write_wins [mkPair "a" one; mkPair "b" two] []
           (mkPair "a" three)).
  exact Hlast.
Defined.

Lemma mapPairs_aux_lookup_Some (m : list Pair) (k : string) (v : Scalar) :
  mapPairs_aux m !! k = Some v -> mkPair k v ∈ m.
Proof.
  induction m as [|p m IH] using rev_ind; intros Hv.
  - unfold mapPairs_aux in Hv. simpl in Hv. by rewrite lookup_empty in Hv.
  - rewrite mapPairs_aux_snoc in Hv. apply elem_of_app.
    destruct (decide (Key p = k)) as [<-|Hne].
    + rewrite lookup_insert_eq in Hv. injection Hv as <-.
      right. destruct p. apply list_elem_of_singleton. reflexivity.
    + rewrite lookup_insert_ne in Hv by done. left. by apply IH.
Qed.

(** The map holds nothing but the pairs: every entry is one of the pairs,
    and every pair's key has an entry. *)
Theorem mapPairs_aux_entries (m : list Pair) (k : string) :
  (forall v, mapPairs_aux m !! k = Some v -> mkPair k v ∈ m) /\
  (k ∈ Key <$> m -> is_Some (mapPairs_aux m !! k)).
Proof.
  split; [intros v; apply mapPairs_aux_lookup_Some|].
  induction m as [|p m IH] using rev_ind.
  - simpl. intros Hin. by apply elem_of_nil in Hin.
  - rewrite mapPairs_aux_snoc, fmap_app, elem_of_app. intros [Hin|Hin].
    + destruct (decide (Key p = k)) as [<-|Hne].
      * rewrite lookup_insert_eq. eauto.
      * rewrite lookup_insert_ne by done. by apply IH.
    + simpl in Hin. apply list_elem_of_singleton in Hin as ->.
      rewrite lookup_insert_eq. eauto.
Qed.

(** When no key occurs twice among the pairs, the map has one entry per
    pair: nothing is lost. *)
Theorem mapPairs_aux_size (m : list Pair) :
  NoDup (Key <$> m) -> size (mapPairs_aux m) = length m.
Proof.
  induction m as [|p m IH] using rev_ind; intros Hnodup.
  - reflexivity.
  - rewrite fmap_app in Hnodup. apply NoDup_app in Hnodup as (Hm & Hp & _).
    rewrite mapPairs_aux_snoc, length_app. simpl.
    rewrite map_size_insert_None; [rewrite IH by done; lia|].
    destruct (mapPairs_aux m !! Key p) as [v|] eqn:Hlook; [|done].
    exfalso. apply (Hp (Key p)).
    + apply mapPairs_aux_lookup_Some in Hlook.
      apply list_elem_of_fmap. by exists (mkPair (Key p) v).
    + simpl. apply list_elem_of_singleton. reflexivity.
Qed.

Lemma mapPairs_aux_size_witness :
  NoDup (Key <$> [mkPair "a" one; mkPair "b" two]) /\
  size (mapPairs_aux [mkPair "a" one; mkPair "b" two]) =
  length [mkPair "a" one; mkPair "b" two].
Proof.
  assert (Hnodup : NoDup (Key <$> [mkPair "a" one; mkPair "b" two]))
    by (apply (bool_decide_unpack _); vm_compute; exact I).
  split; [exact Hnodup|].
  apply (mapPairs_aux_size [mkPair "a" one; mkPair "b" two]). exact Hnodup.
Defined.

(** ** The encoder and its writer *)

Lemma write_json_once {Writer : Type}
    (Write : Writer -> string -> Writer * option error) (w : Writer)
    (out : string + error) :
  untouched_or_written Write w (write_json Write w out).
Proof.
  unfold untouched_or_written. destruct out as [bytes|err]; simpl; eauto.
Qed.

Lemma after_parse_writes_once {A Writer : Type}
    (Write : Writer -> string -> Writer * option error)
    (marshal : A -> string + error) (aux : list Pair -> A) (w : Writer)
    (parsed : Run (list Pair * option error)) (res : Writer * option error) :
  (let* got := parsed in
   match snd got with
   | Some err => Done (w, Some err)
   | None => Done (write_json Write w (marshal (aux (fst got))))
   end) = Done res ->
  untouched_or_written Write w res.
Proof.
  intros Hres. apply bind_Done in Hres as ([ps err] & _ & Hres).
  simpl in Hres. destruct err as [e|]; injection Hres as <-.
  - left. eauto.
  - apply write_json_once.
Qed.

(** Whichever of the four encoder methods runs, and whatever the writer,
    when it returns it has either returned an error without touching the
    writer (encoding, tokenizing or marshalling failed), or called [Write]
    on the writer exactly once and returned what that call gave. *)
Theorem encoder_methods_write_at_most_once {GoValue Writer : Type}
    (Encode : GoValue -> string + error) (NewBuffer : string -> Reader)
    (Marshal_array : list (Scalar * Scalar) -> string + error)
    (Marshal_map : gmap string Scalar -> string + error)
    (Write : Writer -> string -> Writer * option error)
    (w : Writer) (v : GoValue) (r : Reader) (res : Writer * option error) :
  EncodeMap Encode NewBuffer Marshal_map Write w v = Done res \/
  EncodeArray Encode NewBuffer Marshal_array Write w v = Done res \/
  ConvertMap Marshal_map Write w r = Done res \/
  ConvertArray Marshal_array Write w r = Done res ->
  untouched_or_written Write w res.
Proof.
  unfold EncodeMap, EncodeArray, ConvertMap, ConvertArray.
  intros [Hres | [Hres | [Hres | Hres]]].
  - destruct (Encode v) as [buf|err].
    + by apply after_parse_writes_once in Hres.
    + injection Hres as <-. left. eauto.
  - destruct (Encode v) as [buf|err].
    + by apply after_parse_writes_once in Hres.
    + injection Hres as <-. left. eauto.
  - by apply after_parse_writes_once in Hres.
  - by apply after_parse_writes_once in Hres.
Qed.

Lemma encoder_methods_write_at_most_once_witness :
  (EncodeMap sample_Encode sample_NewBuffer sample_Marshal_map short_Write
     "[]" struct_lit = Done ("[]{}", Some "short write") \/
   EncodeArray sample_Encode sample_NewBuffer sample_Marshal_array short_Write
     "[]" struct_lit = Done ("[]{}", Some "short write") \/
   ConvertMap sample_Marshal_map short_Write "[]" stray_brace =
     Done ("[]{}", Some "short write") \/
   ConvertArray sample_Marshal_array short_Write "[]" stray_brace =
     Done ("[]{}", Some "short write")) /\
  untouched_or_written short_Write "[]" ("[]{}", Some "short write").
Proof.
  assert (Hrun : EncodeMap sample_Encode sample_NewBuffer sample_Marshal_map
                   short_Write "[]" struct_lit =
                 Done ("[]{}", Some "short write"))
    by (vm_compute; reflexivity).
  split; [by left|].
  apply (encoder_methods_write_at_most_once sample_Encode sample_NewBuffer
           sample_Marshal_array sample_Marshal_map short_Write "[]"
           struct_lit stray_brace).
  left. exact Hrun.
Defined.

(** When the decoder ends with an error, both [Convert] methods return that
    very error and write nothing. *)
Theorem Convert_reports_decoder_failure {Writer : Type}
    (Marshal_array : list (Scalar * Scalar) -> string + error)
    (Marshal_map : gmap string Scalar -> string + error)
    (Write : Writer -> string -> Writer * option error)
    (w : Writer) (r : Reader) (err : error) (res : Writer * option error) :
  failure r = Some err ->
  ConvertMap Marshal_map Write w r = Done res \/
  ConvertArray Marshal_array Write w r = Done res ->
  res = (w, Some err).
Proof.
  unfold ConvertMap, ConvertArray, parseJSON. intros Hfail Hres.
  rewrite Hfail in Hres.
  destruct (run_tokens init (toks r)) as [st|p]; simpl in Hres.
  - by destruct Hres as [[= <-] | [= <-]].
  - by destruct Hres.
Qed.

Lemma Convert_reports_decoder_failure_witness :
  (failure (mkReader [TDelim lbrace; TValue (Str "a")] (Some "unexpected EOF"))
     = Some "unexpected EOF" /\
   (ConvertMap sample_Marshal_map buffer_Write "[]"
      (mkReader [TDelim lbrace; TValue (Str "a")] (Some "unexpected EOF")) =
      Done ("[]", Some "unexpected EOF") \/
    ConvertArray sample_Marshal_array buffer_Write "[]"
      (mkReader [TDelim lbrace; TValue (Str "a")] (Some "unexpected EOF")) =
      Done ("[]", Some "unexpected EOF"))) /\
  ("[]", Some "unexpected EOF") = ("[]", Some "unexpected EOF").
Proof.
  split; [split; [reflexivity | left; reflexivity]|].
  apply (Convert_reports_decoder_failure sample_Marshal_array
           sample_Marshal_map buffer_Write "[]"
           (mkReader [TDelim lbrace; TValue (Str "a")] (Some "unexpected EOF"))
           "unexpected EOF" ("[]", Some "unexpected EOF"));
    [reflexivity | left; reflexivity].
Defined.

(** ** The package-level functions *)

Lemma bytes_or_error_shape (res : string * option error) :
  bytes_xor_error (bytes_or_error res).
Proof.
  unfold bytes_xor_error, bytes_or_error.
  destruct res as [w [err|]]; simpl; [right | left]; eauto.
Qed.

(** Each of the four package-level functions returns either bytes and no
    error, or an error and no bytes. *)
Theorem package_functions_return_bytes_or_error {GoValue : Type}
    (Encode : GoValue -> string + error) (NewBuffer : string -> Reader)
    (Marshal_array : list (Scalar * Scalar) -> string + error)
    (Marshal_map : gmap string Scalar -> string + error)
    (v : GoValue) (r : Reader) (res : option string * option error) :
  flatjson.EncodeMap Encode NewBuffer Marshal_map v = Done res \/
  flatjson.EncodeArray Encode NewBuffer Marshal_array v = Done res \/
  flatjson.ConvertMap Marshal_map r = Done res \/
  flatjson.ConvertArray Marshal_array r = Done res ->
  bytes_xor_error res.
Proof.
  unfold flatjson.EncodeMap, flatjson.EncodeArray, flatjson.ConvertMap,
    flatjson.ConvertArray.
  intros [Hres | [Hres | [Hres | Hres]]];
    apply bind_Done in Hres as (got & _ & [= <-]);
    apply bytes_or_error_shape.
Qed.

Lemma package_functions_return_bytes_or_error_witness :
  (flatjson.EncodeMap sample_Encode sample_NewBuffer sample_Marshal_map
     struct_lit = Done (Some ("{}" +:+ newline), None) \/
   flatjson.EncodeArray sample_Encode sample_NewBuffer sample_Marshal_array
     struct_lit = Done (Some ("{}" +:+ newline), None) \/
   flatjson.ConvertMap sample_Marshal_map (document (JObject [])) =
     Done (Some ("{}" +:+ newline), None) \/
   flatjson.ConvertArray sample_Marshal_array (document (JObject [])) =
     Done (Some ("{}" +:+ newline), None)) /\
  bytes_xor_error (Some ("{}" +:+ newline), None).
Proof.
  assert (Hrun : flatjson.ConvertMap sample_Marshal_map (document (JObject []))
                 = Done (Some ("{}" +:+ newline), None))
    by (vm_compute; reflexivity).
  split; [right; right; left; exact Hrun|].
  apply (package_functions_return_bytes_or_error sample_Encode
           sample_NewBuffer sample_Marshal_array sample_Marshal_map
           struct_lit (document (JObject []))).
  right; right; left. exact Hrun.
Defined.

(** The package-level [ConvertMap] and [ConvertArray] return bytes exactly
    when [Parse] returns pairs without error and marshalling their map, or
    their array, succeeds; the bytes are the marshalled ones. *)
Theorem package_Convert_is_Parse_then_Marshal
    (Marshal_array : list (Scalar * Scalar) -> string + error)
    (Marshal_map : gmap string Scalar -> string + error)
    (r : Reader) (bytes : string) :
  (flatjson.ConvertMap Marshal_map r = Done (Some bytes, None) <->
   exists ps, Parse r = Done (ps, None) /\
              Marshal_map (mapPairs_aux ps) = inl bytes) /\
  (flatjson.ConvertArray Marshal_array r = Done (Some bytes, None) <->
   exists ps, Parse r = Done (ps, None) /\
              Marshal_array (arrayPairs_aux ps) = inl bytes).
Proof.
  unfold flatjson.ConvertMap, flatjson.ConvertArray, ConvertMap,
    ConvertArray, Parse.
  split; (split;
    [ intros Hres; destruct (parseJSON r) as [[ps [e|]]|p];
        simpl in Hres; try discriminate;
        exists ps; split; [done|];
        match type of Hres with
        | context [write_json _ _ ?out] => destruct out as [b|e]
        end; simpl in Hres; [by injection Hres as <- | discriminate]
    | intros (ps & -> & Hbytes); simpl; by rewrite Hbytes ]).
Qed.

(** The package-level [EncodeMap] and [EncodeArray] return what the
    package-level [ConvertMap] and [ConvertArray] return on the standard
    encoding of the value. *)
Theorem package_Encode_agrees_with_Convert {GoValue : Type}
    (Encode : GoValue -> string + error) (NewBuffer : string -> Reader)
    (Marshal_array : list (Scalar * Scalar) -> string + error)
    (Marshal_map : gmap string Scalar -> string + error)
    (v : GoValue) (enc : string) :
  Encode v = inl enc ->
  flatjson.EncodeMap Encode NewBuffer Marshal_map v =
    flatjson.ConvertMap Marshal_map (NewBuffer enc) /\
  flatjson.EncodeArray Encode NewBuffer Marshal_array v =
    flatjson.ConvertArray Marshal_array (NewBuffer enc).
Proof.
  intros Henc.
  unfold flatjson.EncodeMap, flatjson.EncodeArray, flatjson.ConvertMap,
    flatjson.ConvertArray, EncodeMap, EncodeArray, ConvertMap, ConvertArray.
  rewrite Henc. split; reflexivity.
Qed.

Lemma package_Encode_agrees_with_Convert_witness :
  sample_Encode struct_lit = inl ("{}" +:+ newline) /\
  flatjson.EncodeMap sample_Encode sample_NewBuffer sample_Marshal_map
    struct_lit =
    flatjson.ConvertMap sample_Marshal_map
      (sample_NewBuffer ("{}" +:+ newline)) /\
  flatjson.EncodeArray sample_Encode sample_NewBuffer sample_Marshal_array
    struct_lit =
    flatjson.ConvertArray sample_Marshal_array
      (sample_NewBuffer ("{}" +:+ newline)).
Proof.
  split; [reflexivity|].
  apply (package_Encode_agrees_with_Convert sample_Encode sample_NewBuffer
           sample_Marshal_array sample_Marshal_map struct_lit
           ("{}" +:+ newline)).
  reflexivity.
Defined.

(** ** Converting a flat object *)

Lemma walk_flat_object (fields : list (string * Scalar)) :
  exists st, run_tokens init (tokens (flat_object fields)) = Done st /\
             pairs st = map field_pair fields.
Proof.
  rewrite tokens_flat_object.
  change (TDelim lbrace :: field_tokens fields ++ [TDelim rbrace])
    with ([TDelim lbrace] ++ field_tokens fields ++ [TDelim rbrace]).
  rewrite run_tokens_app.
  destruct (run_tokens init [TDelim lbrace]) as [st0|] eqn:Hopen;
    [|discriminate].
  injection Hopen as Hst0.
  assert (Hroot : at_root_key st0) by (by rewrite <- Hst0).
  assert (Hnone : pairs st0 = []) by (by rewrite <- Hst0).
  destruct (run_flat_fields fields st0 Hroot) as (st1 & Hrun & Hst1 & Hps).
  cbn [bind]. rewrite run_tokens_app, Hrun. cbn [bind run_tokens step].
  destruct Hst1 as (_ & _ & _ & Hpos & _).
  unfold on_rbrace. rewrite Hpos, andb_false_r. cbn [bind].
  eexists. split; [reflexivity|]. simpl. by rewrite Hps, Hnone.
Qed.

Lemma parse_flat_object (r : Reader) (fields : list (string * Scalar)) :
  tokenizes r (flat_object fields) ->
  parseJSON r = Done (map field_pair fields, None).
Proof.
  intros [Htoks Hfail]. unfold parseJSON. rewrite Htoks, Hfail.
  destruct (walk_flat_object fields) as (st & -> & Hps).
  simpl. by rewrite Hps.
Qed.

Lemma mapPairs_aux_list_to_map (m : list Pair) :
  mapPairs_aux m = list_to_map (reverse ((fun p => (Key p, Value p)) <$> m)).
Proof.
  induction m as [|p m IH] using rev_ind; [done|].
  rewrite mapPairs_aux_snoc, fmap_app. simpl (_ <$> [p]).
  rewrite reverse_snoc, list_to_map_cons. by rewrite IH.
Qed.

Lemma field_pair_entries (fields : list (string * Scalar)) :
  (fun p => (Key p, Value p)) <$> map field_pair fields = fields.
Proof.
  induction fields as [|[k v] fields IH]; simpl; [done|].
  f_equal. exact IH.
Qed.

(** [ConvertArray] on a flat object that the decoder tokenizes marshals its
    fields as they stand, each key with its value, in the order of the
    document; when marshalling succeeds the bytes go to the writer in one
    [Write], whose result is returned. *)
Theorem ConvertArray_on_flat_object {Writer : Type}
    (Marshal_array : list (Scalar * Scalar) -> string + error)
    (Write : Writer -> string -> Writer * option error)
    (w : Writer) (r : Reader) (fields : list (string * Scalar)) :
  tokenizes r (flat_object fields) ->
  ConvertArray Marshal_array Write w r =
  Done (write_json Write w
          (Marshal_array (map (fun kv => (Str (fst kv), snd kv)) fields))).
Proof.
  intros Htok. unfold ConvertArray. rewrite (parse_flat_object r fields Htok).
  simpl. clear Htok.
  assert (Haux : arrayPairs_aux (map field_pair fields) =
                 map (fun kv => (Str (fst kv), snd kv)) fields).
  { unfold arrayPairs_aux.
    induction fields as [|[k v] fields IH]; simpl; [done|]. by rewrite IH. }
  by rewrite Haux.
Qed.

Lemma ConvertArray_on_flat_object_witness :
  tokenizes (document (flat_object [("a", one); ("b", Str "x")]))
    (flat_object [("a", one); ("b", Str "x")]) /\
  ConvertArray render_Marshal_array buffer_Write ""
    (document (flat_object [("a", one); ("b", Str "x")])) =
  Done (write_json buffer_Write ""
          (render_Marshal_array
             (map (fun kv => (Str (fst kv), snd kv))
                [("a", one); ("b", Str "x")]))).
Proof.
  assert (Htok : tokenizes (document (flat_object [("a", one); ("b", Str "x")]))
                   (flat_object [("a", one); ("b", Str "x")]))
    by (split; reflexivity).
  split; [exact Htok|].
  apply (ConvertArray_on_flat_object render_Marshal_array buffer_Write ""
           (document (flat_object [("a", one); ("b", Str "x")]))
           [("a", one); ("b", Str "x")]).
  exact Htok.
Defined.

(** [ConvertMap] on a flat object without a repeated key, which the decoder
    tokenizes, marshals the very map of its fields: flattening what is
    already flat changes nothing.  When marshalling succeeds the bytes go
    to the writer in one [Write], whose result is returned. *)
Theorem ConvertMap_on_flat_object {Writer : Type}
    (Marshal_map : gmap string Scalar -> string + error)
    (Write : Writer -> string -> Writer * option error)
    (w : Writer) (r : Reader) (fields : list (string * Scalar)) :
  NoDup (fst <$> fields) -> tokenizes r (flat_object fields) ->
  ConvertMap Marshal_map Write w r =
  Done (write_json Write w (Marshal_map (list_to_map fields))).
Proof.
  intros Hnodup Htok. unfold ConvertMap.
  rewrite (parse_flat_object r fields Htok). simpl.
  assert (Haux : mapPairs_aux (map field_pair fields) = list_to_map fields).
  { rewrite mapPairs_aux_list_to_map, field_pair_entries.
    apply list_to_map_proper; [|apply reverse_Permutation].
    by rewrite fmap_reverse, reverse_Permutation. }
  by rewrite Haux.
Qed.

Lemma ConvertMap_on_flat_object_witness :
  (NoDup (fst <$> [("a", one); ("b", Str "x")]) /\
   tokenizes (document (flat_object [("a", one); ("b", Str "x")]))
     (flat_object [("a", one); ("b", Str "x")])) /\
  ConvertMap render_Marshal_map buffer_Write ""
    (document (flat_object [("a", one); ("b", Str "x")])) =
  Done (write_json buffer_Write ""
          (render_Marshal_map (list_to_map [("a", one); ("b", Str "x")]))).
Proof.
  assert (Hnodup : NoDup (fst <$> [("a", one); ("b", Str "x")]))
    by (apply (bool_decide_unpack _); vm_compute; exact I).
  assert (Htok : tokenizes (document (flat_object [("a", one); ("b", Str "x")]))
                   (flat_object [("a", one); ("b", Str "x")]))
    by (split; reflexivity).
  split; [split; [exact Hnodup | exact Htok]|].
  apply (ConvertMap_on_flat_object render_Marshal_map buffer_Write ""
           (document (flat_object [("a", one); ("b", Str "x")]))
           [("a", one); ("b", Str "x")]); [exact Hnodup | exact Htok].
Defined.

(** What the two conversions of [{"a": 1, "b": "x"}] leave in an empty
    buffer with the sample marshallers. *)
Lemma Convert_flat_object_sample_output :
  ConvertMap render_Marshal_map buffer_Write ""
    (document (flat_object [("a", one); ("b", Str "x")])) =
  Done ("{'a':1,'b':'x'}" +:+ newline, None) /\
  ConvertArray render_Marshal_array buffer_Write ""
    (document (flat_object [("a", one); ("b", Str "x")])) =
  Done ("[['a',1],['b','x']]" +:+ newline, None).
Proof. vm_compute. split; reflexivity. Qed.

(** ** An array of scalars under nested objects *)

Lemma step_bracketed (st st' : State) (tok : Token) :
  bracketed st -> step st tok = Done st' -> bracketed st'.
Proof.
  intros [c Hc] Hstep. destruct tok as [[| | |]|v]; simpl in Hstep.
  - unfold on_lbrace in Hstep. injection Hstep as <-. by exists c.
  - unfold on_rbrace in Hstep.
    apply bind_Done in Hstep as (ps & _ & [= <-]). by exists c.
  - unfold on_lsquare in Hstep.
    apply bind_Done in Hstep as (k & _ & [= <-]).
    exists "0"%char. simpl. by rewrite Hc.
  - unfold on_rsquare in Hstep.
    apply bind_Done in Hstep as (ps & _ & [= <-]). by exists c.
  - destruct (onkey st).
    + unfold on_key in Hstep.
      apply bind_Done in Hstep as (s & _ & Hstep).
      apply bind_Done in Hstep as (p' & _ & [= <-]). by exists c.
    + unfold on_value in Hstep.
      apply bind_Done in Hstep as (st1 & Hst1 & Hstep).
      apply bind_Done in Hstep as (k & _ & [= <-]). simpl.
      destruct (inarr st).
      * apply bind_Done in Hst1 as (p' & _ & [= <-]).
        exists (byte_incr c). simpl. by rewrite Hc.
      * injection Hst1 as <-. by exists c.
Qed.

Lemma run_tokens_bracketed (ts : list Token) (st st' : State) :
  bracketed st -> run_tokens st ts = Done st' -> bracketed st'.
Proof.
  revert st. induction ts as [|tok ts IH]; intros st Hst Hrun; simpl in Hrun.
  - by injection Hrun as <-.
  - apply bind_Done in Hrun as (st1 & Hstep & Hrun).
    eauto using step_bracketed.
Qed.

Lemma init_bracketed : bracketed init.
Proof. by exists "0"%char. Qed.

Lemma open_array_under (outer : list string) (k : string) (st : State) :
  outer <> [] -> bracketed st -> descended_along (outer ++ [k]) st ->
  exists st', step st (TDelim lsquare) = Done st' /\
              in_array_under outer k 0 st' /\ empty st' = true /\
              pairs st' = [].
Proof.
  intros Houter [c Hc] (Hpos & Htake & Harr & Hkey & Hpairs & Hcap).
  rewrite length_app in Hpos, Htake. simpl in Hpos, Htake.
  assert (Hdeep : (0 < length outer)%nat) by (destruct outer; simpl; [done|lia]).
  assert (Hlook : path st !! length outer = Some k).
  { rewrite <- (lookup_take_lt _ (length outer + 1)) by lia.
    rewrite Htake. apply list_lookup_middle. reflexivity. }
  assert (Hpre : take (length outer) (path st) = outer).
  { apply (f_equal (take (length outer))) in Htake.
    rewrite take_take, take_app_length in Htake.
    by replace (length outer `min` (length outer + 1))%nat
      with (length outer) in Htake by lia. }
  pose proof Hcap as [Hlt Hlen].
  eexists. split.
  - simpl. unfold on_lsquare, index_get.
    replace (0 <? pos st) with true by (symmetry; apply Z.ltb_lt; lia).
    case_decide as Hin; [|exfalso; lia]. cbn [bind]. reflexivity.
  - simpl. replace (Z.to_nat (pos st)) with (length outer) by lia.
    rewrite Hlook, Hc. unfold in_array_under. simpl.
    repeat split; try done; try lia; apply Hcap.
Qed.

Lemma step_element_under (outer : list string) (k : string) (i : nat)
    (st : State) (v : Scalar) :
  in_array_under outer k i st ->
  exists st', step st (TValue v) = Done st' /\
              in_array_under outer k (S i) st' /\ empty st' = false /\
              pairs st' =
              pairs st ++
              [mkPair (Join (outer ++ [k +:+ index_key i]) pathd) v].
Proof.
  destruct st as [ps im ia em ok ai ak pa po].
  unfold in_array_under, in_capacity. simpl.
  intros (-> & -> & -> & -> & -> & Htake & Hlt & Hlen).
  assert (Hpos : (if Z.of_nat (length outer) <? 0 then 0
                  else Z.of_nat (length outer)) = Z.of_nat (length outer)).
  { destruct (Z.of_nat (length outer) <? 0) eqn:Hneg; [|done].
    apply Z.ltb_lt in Hneg. lia. }
  eexists. split.
  - unfold on_value. cbn [inarr pos path arrkey arridx]. rewrite Hpos.
    unfold index_set. case_decide as Hin; [|exfalso; lia].
    cbn [bind]. unfold joined_key, slice_to. cbn [path pos].
    case_decide as Hup; [|exfalso; rewrite length_insert in Hup; lia].
    cbn [bind pairs]. reflexivity.
  - simpl. rewrite byte_incr_index_byte, length_insert, Nat2Z.id.
    rewrite take_insert_ge by lia.
    repeat split; try done.
    replace (Z.to_nat (Z.of_nat (length outer) + 1)) with (S (length outer))
      by lia.
    rewrite take_insert_next by lia. by rewrite Htake.
Qed.

Lemma walk_elements_under (outer : list string) (k : string)
    (vs : list Scalar) (i : nat) (st : State) :
  in_array_under outer k i st ->
  exists st', run_tokens st (map TValue vs) = Done st' /\
              in_array_under outer k (i + length vs) st' /\
              (vs <> [] -> empty st' = false) /\
              pairs st' =
              pairs st ++
              imap (fun j v =>
                      mkPair (Join (outer ++ [k +:+ index_key (i + j)]) pathd)
                        v) vs.
Proof.
  revert i st. induction vs as [|v vs IH]; intros i st Hst.
  - exists st. simpl. rewrite Nat.add_0_r, app_nil_r.
    split; [done|]. split; [done|]. split; [intros Hne; by destruct Hne | done].
  - destruct (step_element_under outer k i st v Hst)
      as (st1 & Hstep & Hst1 & Hempty1 & Hps1).
    destruct (IH (S i) st1 Hst1) as (st2 & Hrun2 & Hst2 & Hempty2 & Hps2).
    exists st2. split; [|split; [|split]].
    + cbn [map run_tokens]. rewrite Hstep. exact Hrun2.
    + simpl. by replace (i + S (length vs))%nat
          with (S i + length vs)%nat by lia.
    + intros _. destruct vs as [|v' vs]; [|by apply Hempty2].
      simpl in Hrun2. by injection Hrun2 as <-.
    + rewrite Hps2, Hps1, <- app_assoc. simpl. rewrite Nat.add_0_r.
      do 2 f_equal. apply imap_ext. intros j x _. simpl.
      by replace (i + S j)%nat with (S (i + j)) by lia.
Qed.

(** An array of scalars, with at least one element, that is the value of
    the key [k] at least two objects deep, in a document the decoder
    tokenizes: the [i]-th element is keyed by the outer keys joined with
    dots and then [k] followed directly by the bracketed index byte, as in
    [a.foo[0]]. *)
Theorem tokenized_array_under_keys (r : Reader) (k0 : string)
    (ks : list string) (k : string) (v : Scalar) (vs : list Scalar) :
  tokenizes r (chain ((k0 :: ks) ++ [k]) (scalar_array (v :: vs))) ->
  parseJSON r =
  Done (imap (fun i x =>
                mkPair (Join ((k0 :: ks) ++ [k +:+ index_key i]) pathd) x)
          (v :: vs), None).
Proof.
  intros [Htoks Hfail]. unfold parseJSON. rewrite Htoks, Hfail.
  rewrite tokens_chain, run_tokens_app.
  destruct (descend_keys ((k0 :: ks) ++ [k]) [] init init_descended_along)
    as (st1 & Hrun1 & Hst1).
  pose proof (run_tokens_bracketed _ _ _ init_bracketed Hrun1) as Hbr1.
  rewrite Hrun1. cbn [bind]. rewrite app_nil_l in Hst1.
  rewrite tokens_scalar_array.
  destruct (open_array_under (k0 :: ks) k st1) as (st2 & Hopen & Hst2 & _ & Hnone);
    [done | done | done |].
  cbn [app run_tokens]. rewrite Hopen. cbn [bind].
  rewrite <- app_assoc, run_tokens_app.
  destruct (walk_elements_under (k0 :: ks) k (v :: vs) 0 st2 Hst2)
    as (st3 & Hrun3 & _ & Hempty & Hps).
  rewrite Hrun3. cbn [bind app run_tokens step].
  unfold on_rsquare. rewrite Hempty by done. cbn [andb bind].
  match goal with
  | |- bind (run_tokens ?s (replicate ?n _)) _ = _ =>
      destruct (run_closing n s) as (st4 & Hrun4 & Hps4); [reflexivity|]
  end.
  rewrite Hrun4. cbn [bind]. rewrite Hps4. cbn [pairs].
  by rewrite Hps, Hnone.
Qed.

Lemma tokenized_array_under_keys_witness :
  tokenizes (document inner_foo_array)
    (chain (("a" :: []) ++ ["foo"]) (scalar_array (one :: [two]))) /\
  parseJSON (document inner_foo_array) =
  Done (imap (fun i x =>
                mkPair (Join (("a" :: []) ++ ["foo" +:+ index_key i]) pathd) x)
          (one :: [two]), None).
Proof.
  assert (Htok : tokenizes (document inner_foo_array)
                   (chain (("a" :: []) ++ ["foo"])
                      (scalar_array (one :: [two]))))
    by (split; reflexivity).
  split; [exact Htok|].
  apply (tokenized_array_under_keys (document inner_foo_array) "a" [] "foo"
           one [two]).
  exact Htok.
Defined.
